(** * beluga::spatial_hash

    A shallow embedding of [beluga/algorithm/spatial_hash.hpp] and the
    properties of the spatial hash that follow from it.

    - [std::size_t] is a [Z] in [0, 2^digits) with the wrap-around written out;
    - [double] is IEEE-754 binary64, as specified by [SpecFloat];
    - operations whose behaviour C++ leaves undefined (a conversion of an
      unrepresentable floating-point value to an integer, a shift by the word
      width or more) yield no result; every shift amount that is evaluated is
      recorded, so that the safety of the rotation can be stated. *)

From Stdlib Require Import ZArith List Bool Lia QArith Qpower Qround Permutation.
From Stdlib Require Import Floats.SpecFloat.
Import ListNotations.
Local Open Scope Z_scope.

(** ** Machine words *)

(** [std::size_t] is [std::uint32_t] or [std::uint64_t]; the [static_assert] in
    [kFib] rejects every other width at compile time. *)
Inductive word_size : Type := W32 | W64.

(** [std::numeric_limits<std::size_t>::digits] *)
Definition digits (w : word_size) : Z :=
  match w with W32 => 32 | W64 => 64 end.

Definition modulus (w : word_size) : Z := 2 ^ digits w.

(** Unsigned arithmetic is performed modulo [2^digits]. *)
Definition wrap (w : word_size) (z : Z) : Z := z mod modulus w.

Definition size_mul (w : word_size) (a b : Z) : Z := wrap w (a * b).
Definition size_sub (w : word_size) (a b : Z) : Z := wrap w (a - b).

(** Range of [std::make_signed_t<std::size_t>]. *)
Definition min_signed (w : word_size) : Z := - 2 ^ (digits w - 1).
Definition max_signed (w : word_size) : Z := 2 ^ (digits w - 1) - 1.

(** ** Executions

    An execution carries the amounts of the shifts it evaluated, in order, and
    its result; [None] stands for undefined behaviour. *)
Record exec (A : Type) : Type := Exec { shifts : list Z; result : option A }.
Arguments Exec {A} _ _.
Arguments shifts {A} _.
Arguments result {A} _.

Definition ret {A : Type} (a : A) : exec A := Exec [] (Some a).

Definition undefined {A : Type} : exec A := Exec [] None.

Definition bind {A B : Type} (m : exec A) (k : A -> exec B) : exec B :=
  match result m with
  | None => Exec (shifts m) None
  | Some a => Exec (shifts m ++ shifts (k a)) (result (k a))
  end.

Notation "x <- m ;; k" := (bind m (fun x => k))
  (at level 61, m at next level, right associativity).

Definition shift_in_range (w : word_size) (k : Z) : bool :=
  (0 <=? k) && (k <? digits w).

(** [x << k] and [x >> k] on [std::size_t]: undefined when [k] is not less than
    the width of the word. *)
Definition shl (w : word_size) (x k : Z) : exec Z :=
  Exec [k] (if shift_in_range w k then Some (wrap w (Z.shiftl x k)) else None).

Definition shr (w : word_size) (x k : Z) : exec Z :=
  Exec [k] (if shift_in_range w k then Some (Z.shiftr x k) else None).

(** ** IEEE-754 binary64 *)

Definition double : Type := spec_float.

Definition prec : Z := 53.
Definition emax : Z := 1024.

(** A well-formed binary64 datum. *)
Definition valid_double (x : double) : Prop := valid_binary prec emax x = true.

(** Division, correctly rounded to nearest even. *)
Definition fdiv (a b : double) : double := SFdiv prec emax a b.

(** Conversion of an integer to [double]. *)
Definition of_int (z : Z) : double := binary_normalize prec emax z 0 false.

(** A decimal literal [n / d] with [d] a power of ten such as [1.4 = 14 / 10]:
    the binary64 nearest to the quotient. *)
Definition literal (n d : Z) : double := fdiv (of_int n) (of_int d).

(** The value of a finite number is [(-1)^s * m * 2^e]. *)
Definition double_value (x : double) : option Q :=
  match x with
  | S754_zero _ => Some 0%Q
  | S754_finite s m e => Some (inject_Z (cond_Zopp s (Zpos m)) * 2 ^ e)%Q
  | S754_infinity _ | S754_nan => None
  end.

(** [std::floor]: the largest integral value not greater than the argument.
    Zeros, infinities and NaN are returned unchanged, and so is a number
    whose exponent is not negative, since it is integral already. *)
Definition std_floor (x : double) : double :=
  match x with
  | S754_finite s m e =>
      if 0 <=? e then x
      else
        match Z.shiftl (cond_Zopp s (Zpos m)) e with
        | Z0 => S754_zero s
        | n => binary_normalize prec emax n 0 false
        end
  | _ => x
  end.

(** [static_cast<signed_type>(x)]: the fractional part is discarded
    (truncation toward zero); the behaviour is undefined when the truncated
    value is not representable, and for infinities and NaN. *)
Definition static_cast_signed (w : word_size) (x : double) : exec Z :=
  match x with
  | S754_zero _ => ret 0
  | S754_finite s m e =>
      let t := cond_Zopp s (Z.shiftl (Zpos m) e) in
      if (min_signed w <=? t) && (t <=? max_signed w) then ret t else undefined
  | S754_infinity _ | S754_nan => undefined
  end.

(** [static_cast<unsigned_type>(z)]: the two's-complement bit pattern of [z],
    read as an unsigned number. *)
Definition static_cast_unsigned (w : word_size) (z : Z) : Z := wrap w z.

(** Arithmetic types ([std::is_arithmetic_v]) and their conversion to [double]
    by the usual arithmetic conversions of [value / resolution]. *)
Class Arithmetic (T : Type) : Type := to_double : T -> double.

#[export] Instance Arithmetic_double : Arithmetic double := fun d => d.

(** [int] and the other integer types. *)
#[export] Instance Arithmetic_int : Arithmetic Z := of_int.

(** An element of a tuple of arithmetic types. *)
Inductive scalar : Type :=
  | Int (z : Z)
  | Double (d : double).

#[export] Instance Arithmetic_scalar : Arithmetic scalar :=
  fun v => match v with Int z => of_int z | Double d => d end.

(** ** namespace beluga::detail *)

Module detail.

Section WithSize.

Variable size_t : word_size.

(** The constant of the Fibonacci hash. *)
Definition kFib : Z :=
  match size_t with
  | W64 => 11400714819323198485
  | W32 => 2654435769
  end.

(** [floor_and_fibo_hash<N, I>(value)] *)
Definition floor_and_fibo_hash (N I : Z) (value : double) : exec Z :=
  signed_value <- static_cast_signed size_t (std_floor value) ;;
  let unsigned_value := static_cast_unsigned size_t signed_value in
  let div_hashed_value := wrap size_t (kFib * unsigned_value) in
  if negb (size_mul size_t N I =? 0) then
    left_hash <- shl size_t div_hashed_value (size_mul size_t N I) ;;
    right_hash <- shr size_t div_hashed_value
                    (size_sub size_t (digits size_t) (size_mul size_t N I)) ;;
    ret (Z.lor left_hash right_hash)
  else
    ret div_hashed_value.

(** The fold expression [(e ^ ...)]: a right fold over a pack that must not
    be empty. *)
Fixpoint fold_xor (operands : list (exec Z)) : exec Z :=
  match operands with
  | [] => undefined
  | [e] => e
  | e :: rest => a <- e ;; b <- fold_xor rest ;; ret (Z.lxor a b)
  end.

(** [std::get<Ids>(value)] and [resolution[Ids]]; the index is within bounds
    whenever the program type-checks. *)
Definition get {A : Type} (Ids : nat) (l : list A) : exec A :=
  match nth_error l Ids with
  | Some a => ret a
  | None => undefined
  end.

(** [hash_impl(value, resolution, std::index_sequence<Ids...>)] *)
Definition hash_impl {T : Type} `{Arithmetic T}
    (value : list T) (resolution : list double) (index_sequence : list nat)
    : exec Z :=
  let kBits := digits size_t / Z.of_nat (length index_sequence) in
  fold_xor
    (map (fun Ids =>
            v <- get Ids value ;;
            r <- get Ids resolution ;;
            floor_and_fibo_hash kBits (Z.of_nat Ids) (fdiv (to_double v) r))
         index_sequence).

End WithSize.

End detail.

(** [std::make_index_sequence<N>] *)
Definition make_index_sequence (N : nat) : list nat := seq 0 N.

(** ** namespace beluga *)

(** [spatial_hash<std::array<T, N>>] *)
Module spatial_hash_array.

Record t (T : Type) (N : nat) : Type := make { resolution_ : list double }.
Arguments make {T} N _.
Arguments resolution_ {T N} _.

(** [operator()] *)
Definition call {T : Type} `{Arithmetic T} {N : nat}
    (size_t : word_size) (this : t T N) (array : list T) : exec Z :=
  detail.hash_impl size_t array (resolution_ this) (make_index_sequence N).

End spatial_hash_array.

(** [spatial_hash<Tuple<Types...>>], with [N = sizeof...(Types)] *)
Module spatial_hash_tuple.

Record t (N : nat) : Type := make { resolution_ : list double }.
Arguments resolution_ {N} _.

(** [operator()] *)
Definition call {N : nat}
    (size_t : word_size) (this : t N) (tuple : list scalar) : exec Z :=
  detail.hash_impl size_t tuple (resolution_ this) (make_index_sequence N).

End spatial_hash_tuple.

(** Modelled from the spec: the geometry library Sophus is not part of the
    sources.  A pose exposes its two translation components and, through
    [so2().log()], the scalar angle of its rotation. *)
Module Sophus.

Record Vector2d : Type := { x : double; y : double }.

Record SO2d : Type := { log : double }.

Record SE2d : Type := { so2 : SO2d; translation : Vector2d }.

End Sophus.

(** [spatial_hash<Sophus::SE2d>] *)
Module spatial_hash_SE2d.

Record t : Type := { underlying_hasher_ : spatial_hash_tuple.t 3 }.

(** The member initialiser [underlying_hasher_{{1., 1., 1.}}], used by the
    defaulted default constructor. *)
Definition default : t :=
  {| underlying_hasher_ :=
       spatial_hash_tuple.make 3 [of_int 1; of_int 1; of_int 1] |}.

(** The constructor from per-coordinate resolutions. *)
Definition make3
    (x_clustering_resolution y_clustering_resolution
     theta_clustering_resolution : double) : t :=
  {| underlying_hasher_ :=
       spatial_hash_tuple.make 3
         [x_clustering_resolution; y_clustering_resolution;
          theta_clustering_resolution] |}.

(** The constructor from per-group resolutions delegates to [make3]. *)
Definition make2
    (linear_clustering_resolution angular_clustering_resolution : double) : t :=
  make3 linear_clustering_resolution linear_clustering_resolution
        angular_clustering_resolution.

(** [operator()] *)
Definition call (size_t : word_size) (this : t) (state : Sophus.SE2d)
    : exec Z :=
  let position := Sophus.translation state in
  spatial_hash_tuple.call size_t (underlying_hasher_ this)
    [Double (Sophus.x position); Double (Sophus.y position);
     Double (Sophus.log (Sophus.so2 state))].

End spatial_hash_SE2d.

(** ** Reference definitions, following the specification *)

(** Section 4.1, step 3: the multiplicative constant for each word width. *)
Definition fibonacci_constant (w : word_size) : Z :=
  match w with W32 => 2654435769 | W64 => 11400714819323198485 end.

(** Section 4.1, step 4: a left rotation by [k] positions.  Bit [i] of the
    result is bit [(i - k) mod width] of the operand, so the bits pushed off the
    top re-enter at the bottom. *)
Definition rotate_left (w : word_size) (x k : Z) : Z :=
  fold_right
    (fun i acc =>
       if Z.testbit x ((i - k) mod digits w) then Z.setbit acc i else acc)
    0 (map Z.of_nat (seq 0 (Z.to_nat (digits w)))).

(** Section 4.1: AxisHash applied to a bucket, the floor of the value. *)
Definition axis_hash (w : word_size) (bucket bits_per_axis axis_index : Z) : Z :=
  let unsigned := bucket mod 2 ^ digits w in
  let product := (fibonacci_constant w * unsigned) mod 2 ^ digits w in
  rotate_left w product (bits_per_axis * axis_index).

(** The bucket of a value at a resolution: the floor of the quotient computed
    in binary64. *)
Definition bucket (value resolution : double) : option Z :=
  option_map Qfloor (double_value (fdiv value resolution)).

(** Exclusive or of two words, either of which may be missing. *)
Definition xor_option (a b : option Z) : option Z :=
  match a, b with
  | Some x, Some y => Some (Z.lxor x y)
  | _, _ => None
  end.

(** Section 4.2, step 3: XOR-fold of the per-axis words into a single word. *)
Definition xor_words (words : list (option Z)) : option Z :=
  fold_left xor_option words (Some 0).

(** Section 4.2: the Combiner over [D] axes. *)
Definition combine {T : Type} `{Arithmetic T}
    (w : word_size) (D : nat) (axes : list T) (resolutions : list double)
    : option Z :=
  let bits_per_axis := digits w / Z.of_nat D in
  xor_words
    (map (fun i =>
            match nth_error axes i, nth_error resolutions i with
            | Some a, Some r =>
                result (detail.floor_and_fibo_hash w bits_per_axis (Z.of_nat i)
                          (fdiv (to_double a) r))
            | _, _ => None
            end)
         (seq 0 D)).

(** Section 4.3: a pose normalised to the 3-tuple [(x, y, theta)]. *)
Definition pose_tuple (state : Sophus.SE2d) : list scalar :=
  [Double (Sophus.x (Sophus.translation state));
   Double (Sophus.y (Sophus.translation state));
   Double (Sophus.log (Sophus.so2 state))].

(** [a == b] on [double]. *)
Definition double_eq (a b : double) : Prop := SFeqb a b = true.


(** The integer [signed_value] that [floor_and_fibo_hash] computes for one
    axis of [hash_impl], from the element [a] of the state and the element
    [c] of the resolution. *)
Definition axis_signed_value {T : Type} `{Arithmetic T}
    (w : word_size) (a : T) (c : double) : exec Z :=
  static_cast_signed w (std_floor (fdiv (to_double a) c)).

(** The inverse of [kFib] modulo the size of the word. *)
Definition fibonacci_inverse (w : word_size) : Z :=
  match w with W32 => 340573321 | W64 => 17428512612931826493 end.

(** An infinity or a NaN. *)
Definition not_finite (x : double) : Prop :=
  match x with
  | S754_nan | S754_infinity _ => True
  | S754_zero _ | S754_finite _ _ _ => False
  end.

(** A zero or a NaN. *)
Definition zero_or_nan (x : double) : Prop :=
  match x with
  | S754_nan | S754_zero _ => True
  | S754_infinity _ | S754_finite _ _ _ => False
  end.

(** The range of the signed integer type, as a test. *)
Definition in_signed_range (w : word_size) (z : Z) : bool :=
  (min_signed w <=? z) && (z <=? max_signed w).

(** A mantissa and an exponent in canonical position. *)
Definition positioned (m e : Z) : Prop :=
  (m = 0 /\ e = emin prec emax) \/
  (0 < m /\ fexp prec emax (Zdigits2 m + e) = e).

(** ** The model on known values *)

(** [0.1] is [0x1.999999999999ap-4] and [-0.3] is [-0x1.3333333333333p-2]. *)
Example literal_one_tenth :
  literal 1 10 = S754_finite false 7205759403792794 (-56).
Proof. reflexivity. Qed.

Example literal_minus_three_tenths :
  literal (-3) 10 = S754_finite true 5404319552844595 (-54).
Proof. reflexivity. Qed.

(** [0.15 / 0.1] is [0x1.7ffffffffffffp+0], just below [1.5]. *)
Example quotient_rounded :
  fdiv (literal 15 100) (literal 1 10) =
  S754_finite false 6755399441055743 (-52).
Proof. reflexivity. Qed.

Example floor_negative : std_floor (literal (-3) 10) = of_int (-1).
Proof. reflexivity. Qed.

Example floor_positive : std_floor (literal 29 10) = of_int 2.
Proof. reflexivity. Qed.

Example floor_negative_zero : std_floor (S754_zero true) = S754_zero true.
Proof. reflexivity. Qed.

(** The conversion alone truncates toward zero. *)
Example cast_truncates :
  static_cast_signed W64 (literal (-29) 10) = ret (-2).
Proof. reflexivity. Qed.

Example cast_nan : static_cast_signed W64 S754_nan = undefined.
Proof. reflexivity. Qed.

Example cast_too_large :
  static_cast_signed W32 (of_int (2 ^ 31)) = undefined.
Proof. reflexivity. Qed.

(** One axis at [-0.3]: the bucket [-1] is the word of all ones, and its
    product with the constant is the two's complement of the constant. *)
Example hash_minus_three_tenths :
  detail.hash_impl W64 [literal (-3) 10] [of_int 1] (make_index_sequence 1) =
  ret 7046029254386353131.
Proof. reflexivity. Qed.

Example hash_two_axes :
  detail.hash_impl W64 [of_int 1; of_int 2] [of_int 1; of_int 1]
    (make_index_sequence 2) =
  Exec [32; 32] (Some 6963551918331563879).
Proof. reflexivity. Qed.

Example hash_two_axes_32 :
  detail.hash_impl W32 [of_int 1; of_int 2] [of_int 1; of_int 1]
    (make_index_sequence 2) =
  Exec [16; 16] (Some 1833256407).
Proof. reflexivity. Qed.

(** A rotation by the width of the word is undefined in the primitive. *)
Example rotation_by_width :
  detail.floor_and_fibo_hash W64 64 1 (of_int 1) = Exec [64] None.
Proof. reflexivity. Qed.

Example rotate_left_example : rotate_left W32 2147483649 4 = 24.
Proof. reflexivity. Qed.

(** ** Words and executions *)

Lemma digits_pos (w : word_size) : 0 < digits w.
Proof. destruct w; reflexivity. Qed.

Lemma modulus_pos (w : word_size) : 0 < modulus w.
Proof. destruct w; reflexivity. Qed.

Lemma wrap_range (w : word_size) (z : Z) : 0 <= wrap w z < 2 ^ digits w.
Proof. apply Z.mod_pos_bound, modulus_pos. Qed.

Lemma digits_lt_modulus (w : word_size) : digits w < modulus w.
Proof. destruct w; reflexivity. Qed.

Lemma result_bind {A B : Type} (m : exec A) (k : A -> exec B) :
  result (bind m k) =
  match result m with Some a => result (k a) | None => None end.
Proof. unfold bind. destruct (result m); reflexivity. Qed.

Lemma bind_ret {A B : Type} (a : A) (k : A -> exec B) : bind (ret a) k = k a.
Proof. unfold bind, ret. simpl. destruct (k a); reflexivity. Qed.

Lemma Forall_shifts_bind {A B : Type} (P : Z -> Prop)
    (m : exec A) (k : A -> exec B) :
  Forall P (shifts m) -> (forall a, Forall P (shifts (k a))) ->
  Forall P (shifts (bind m k)).
Proof.
  intros Hm Hk. unfold bind. destruct (result m); simpl; [|exact Hm].
  apply Forall_app. split; [exact Hm | apply Hk].
Qed.

(** ** The rotation *)

Lemma testbit_fold_setbit (x k n : Z) (l : list nat) (j : Z) :
  0 <= j ->
  Z.testbit
    (fold_right
       (fun i acc => if Z.testbit x ((i - k) mod n) then Z.setbit acc i else acc)
       0 (map Z.of_nat l)) j =
  existsb (Z.eqb j) (map Z.of_nat l) && Z.testbit x ((j - k) mod n).
Proof.
  intros Hj. induction l as [|i l IH]; simpl.
  - apply Z.bits_0.
  - destruct (Z.eqb_spec j (Z.of_nat i)) as [->|Hne]; simpl.
    + destruct (Z.testbit x ((Z.of_nat i - k) mod n)) eqn:E.
      * rewrite Z.setbit_eq by assumption. reflexivity.
      * rewrite IH. apply andb_false_r.
    + destruct (Z.testbit x ((Z.of_nat i - k) mod n)).
      * rewrite Z.setbit_neq by (auto; lia). exact IH.
      * exact IH.
Qed.

Lemma existsb_indices (n : nat) (j : Z) :
  0 <= j ->
  existsb (Z.eqb j) (map Z.of_nat (seq 0 n)) = (j <? Z.of_nat n).
Proof.
  intros Hj. destruct (Z.ltb_spec j (Z.of_nat n)) as [Hlt|Hge].
  - apply existsb_exists. exists j. split; [|apply Z.eqb_refl].
    apply in_map_iff. exists (Z.to_nat j). split; [lia|].
    apply in_seq. lia.
  - destruct (existsb (Z.eqb j) (map Z.of_nat (seq 0 n))) eqn:E; [|reflexivity].
    apply existsb_exists in E. destruct E as [i [Hin Heq]].
    apply in_map_iff in Hin. destruct Hin as [m [<- Hm]].
    apply in_seq in Hm. apply Z.eqb_eq in Heq. lia.
Qed.

(** Bit [j] of a rotated word. *)
Lemma rotate_left_spec (w : word_size) (x k j : Z) :
  0 <= j ->
  Z.testbit (rotate_left w x k) j =
  (j <? digits w) && Z.testbit x ((j - k) mod digits w).
Proof.
  intros Hj. unfold rotate_left.
  rewrite testbit_fold_setbit by assumption.
  rewrite existsb_indices by assumption.
  rewrite Z2Nat.id by (pose proof (digits_pos w); lia). reflexivity.
Qed.

Lemma testbit_above (x n j : Z) :
  0 <= x < 2 ^ n -> n <= j -> Z.testbit x j = false.
Proof.
  intros Hx Hj. destruct (Z.eq_dec x 0) as [->|Hne]; [apply Z.bits_0|].
  apply Z.bits_above_log2; [lia|].
  assert (Z.log2 x < n); [|lia].
  apply Z.log2_lt_pow2; lia.
Qed.

Lemma rotate_left_0 (w : word_size) (x : Z) :
  0 <= x < 2 ^ digits w -> rotate_left w x 0 = x.
Proof.
  intros Hx. apply Z.bits_inj'. intros j Hj.
  rewrite rotate_left_spec by assumption. rewrite Z.sub_0_r.
  pose proof (digits_pos w) as Hd.
  destruct (Z.ltb_spec j (digits w)); simpl.
  - rewrite Z.mod_small by lia. reflexivity.
  - symmetry. apply testbit_above with (n := digits w); assumption.
Qed.

(** The rotation amount only matters modulo the width of the word. *)
Lemma rotate_left_mod (w : word_size) (x k : Z) :
  rotate_left w x (k mod 2 ^ digits w) = rotate_left w x k.
Proof.
  apply Z.bits_inj'. intros j Hj.
  rewrite !rotate_left_spec by assumption. f_equal. f_equal.
  pose proof (digits_pos w) as Hd.
  assert (Hdiv : exists c, 2 ^ digits w = c * digits w).
  { destruct w; [exists (2 ^ 27) | exists (2 ^ 58)]; reflexivity. }
  destruct Hdiv as [c Hc].
  rewrite (Z.mod_eq k (2 ^ digits w)) by (pose proof (modulus_pos w); unfold modulus in *; lia).
  rewrite Hc.
  replace (j - (k - c * digits w * (k / (c * digits w))))
    with (j - k + (c * (k / (c * digits w))) * digits w) by ring.
  apply Z.mod_add. lia.
Qed.

(** The two shifts of [floor_and_fibo_hash], combined by bitwise or, are a
    left rotation. *)
Lemma shifts_rotate (w : word_size) (x k : Z) :
  0 <= x < 2 ^ digits w -> 0 < k < digits w ->
  Z.lor (wrap w (Z.shiftl x k)) (Z.shiftr x (digits w - k)) = rotate_left w x k.
Proof.
  intros Hx Hk. apply Z.bits_inj'. intros j Hj.
  rewrite rotate_left_spec by assumption.
  rewrite Z.lor_spec. unfold wrap, modulus.
  rewrite Z.testbit_mod_pow2 by lia.
  rewrite Z.shiftl_spec by assumption.
  rewrite Z.shiftr_spec by assumption.
  destruct (Z.ltb_spec j (digits w)) as [Hlt|Hge]; simpl.
  - destruct (Z.lt_ge_cases j k) as [Hjk|Hjk].
    + rewrite (Z.testbit_neg_r x (j - k)) by lia. simpl.
      f_equal. symmetry.
      replace (j - k) with (j + (digits w - k) + (-1) * digits w) by ring.
      rewrite Z.mod_add by lia. apply Z.mod_small. lia.
    + rewrite (testbit_above x (digits w) (j + (digits w - k))) by (auto; lia).
      rewrite orb_false_r. f_equal. symmetry. apply Z.mod_small. lia.
  - apply testbit_above with (n := digits w); [assumption | lia].
Qed.

(** ** Binary64: digits, normalisation and the floor *)

Lemma digits2_pos_size (p : positive) : digits2_pos p = Pos.size p.
Proof. induction p; simpl; congruence. Qed.

Lemma digits2_pos_bounds (p : positive) :
  2 ^ (Zpos (digits2_pos p) - 1) <= Zpos p < 2 ^ Zpos (digits2_pos p).
Proof.
  rewrite digits2_pos_size. split.
  - pose proof (Pos.size_le p) as H.
    apply Pos2Z.pos_le_pos in H. rewrite Pos2Z.inj_pow in H.
    replace (Zpos (Pos.size p)) with (Zpos (Pos.size p) - 1 + 1) in H by ring.
    rewrite Z.pow_add_r in H by lia. lia.
  - pose proof (Pos.size_gt p) as H.
    apply Pos2Z.pos_lt_pos in H. rewrite Pos2Z.inj_pow in H. exact H.
Qed.

Lemma digits2_pos_le (p : positive) (n : Z) :
  Zpos p < 2 ^ n -> Zpos (digits2_pos p) <= n.
Proof.
  intros H. pose proof (digits2_pos_bounds p) as [Hlo _].
  destruct (Z.le_gt_cases (Zpos (digits2_pos p)) n) as [|Hgt]; [assumption|].
  exfalso. assert (2 ^ n <= 2 ^ (Zpos (digits2_pos p) - 1)).
  { apply Z.pow_le_mono_r; lia. }
  lia.
Qed.

Lemma iter_xO_value (p n : positive) :
  Zpos (Pos.iter xO p n) = Zpos p * 2 ^ Zpos n.
Proof.
  revert p. induction n using Pos.peano_ind; intros p.
  - simpl. lia.
  - rewrite Pos.iter_succ, Pos2Z.inj_succ, Z.pow_succ_r by lia.
    rewrite Pos2Z.inj_xO, IHn. ring.
Qed.

Lemma iter_xO_digits (p n : positive) :
  digits2_pos (Pos.iter xO p n) = (digits2_pos p + n)%positive.
Proof.
  induction n using Pos.peano_ind.
  - simpl. lia.
  - rewrite Pos.iter_succ. simpl. rewrite IHn. lia.
Qed.

(** A mantissa of exactly [prec] bits is kept as it is. *)
Lemma binary_round_aux_exact (s : bool) (m : positive) (e : Z) :
  Zpos (digits2_pos m) = prec -> -1074 <= e <= 971 ->
  binary_round_aux prec emax s (Zpos m) e loc_Exact = S754_finite s m e.
Proof.
  intros Hd He.
  assert (Hshr : shr_fexp prec emax (Zpos m) e loc_Exact =
                 (Build_shr_record (Zpos m) false false, e)).
  { unfold shr_fexp, Zdigits2. rewrite Hd.
    replace (fexp prec emax (prec + e) - e) with 0.
    - reflexivity.
    - unfold fexp, emin, prec, emax. lia. }
  unfold binary_round_aux. rewrite Hshr. simpl. rewrite Hshr. simpl.
  destruct (Z.leb_spec e 971); [reflexivity | lia].
Qed.

(** An integer of at most [prec] bits is converted exactly. *)
Lemma binary_round_integer (s : bool) (p : positive) :
  Zpos p < 2 ^ prec ->
  exists m e,
    binary_round prec emax s p 0 = S754_finite s m e /\
    e <= 0 /\ Zpos m = Zpos p * 2 ^ (- e).
Proof.
  intros Hp. pose proof (digits2_pos_le p prec Hp) as Hd.
  unfold binary_round, shl_align.
  assert (Hf : fexp prec emax (Zpos (digits2_pos p) + 0) = Zpos (digits2_pos p) - prec).
  { unfold fexp, emin, prec, emax. lia. }
  rewrite Hf.
  destruct (Zpos (digits2_pos p) - prec - 0) as [|d|d] eqn:Ed.
  - exists p, 0. split; [|split; [lia | simpl; lia]].
    apply binary_round_aux_exact; lia.
  - unfold prec in *. lia.
  - exists (Pos.iter xO p d), (Zpos (digits2_pos p) - prec).
    split; [|split; [lia|]].
    + apply binary_round_aux_exact.
      * rewrite iter_xO_digits. unfold prec in *. lia.
      * unfold prec in *. lia.
    + rewrite iter_xO_value. f_equal. f_equal. lia.
Qed.

Lemma cond_Zopp_shiftl (s : bool) (m e : Z) :
  0 <= e -> Z.shiftl (cond_Zopp s m) e = cond_Zopp s (Z.shiftl m e).
Proof.
  intros He. rewrite !Z.shiftl_mul_pow2 by assumption.
  destruct s; simpl; ring.
Qed.

(** The floor of the value of a finite number, on its representation. *)
Lemma Qfloor_finite (n e : Z) :
  Qfloor (inject_Z n * 2 ^ e)%Q = Z.shiftl n e.
Proof.
  destruct (Z.le_gt_cases 0 e) as [He|He].
  - rewrite Z.shiftl_mul_pow2 by assumption.
    rewrite <- (Qfloor_Z (n * 2 ^ e)). apply Qfloor_comp.
    rewrite inject_Z_mult. rewrite (Zpower_Qpower 2 e He). reflexivity.
  - destruct e as [|p|p]; try lia.
    change (Z.neg p) with (- Z.pos p).
    rewrite Z.shiftl_opp_r, Z.shiftr_div_pow2 by lia.
    rewrite <- Pos2Z.inj_pow.
    change (n / Z.pos (2 ^ p)) with (Qfloor (n # (2 ^ p))).
    apply Qfloor_comp.
    rewrite Qpower_opp, <- (Zpower_Qpower 2 (Z.pos p)) by lia.
    rewrite <- Pos2Z.inj_pow. rewrite (Qmake_Qdiv n (2 ^ p)). reflexivity.
Qed.

Lemma valid_double_mantissa (s : bool) (m : positive) (e : Z) :
  valid_double (S754_finite s m e) -> Zpos m < 2 ^ prec.
Proof.
  unfold valid_double, valid_binary, bounded, canonical_mantissa.
  intros H. apply andb_true_iff in H. destruct H as [H _].
  apply Z.eqb_eq in H.
  pose proof (digits2_pos_bounds m) as [_ Hhi].
  assert (Hd : Zpos (digits2_pos m) <= prec).
  { unfold fexp, emin, prec, emax in *. lia. }
  eapply Z.lt_le_trans; [exact Hhi|].
  apply Z.pow_le_mono_r; lia.
Qed.

(** Converting a small integer to binary64 and back to an integer. *)
Lemma static_cast_signed_of_integer (w : word_size) (n : Z) :
  n <> 0 -> Z.abs n < 2 ^ prec -> min_signed w <= n <= max_signed w ->
  static_cast_signed w (binary_normalize prec emax n 0 false) = ret n.
Proof.
  intros Hn Habs Hr.
  assert (Hgen : forall (s : bool) (p : positive),
             Zpos p < 2 ^ prec ->
             min_signed w <= cond_Zopp s (Zpos p) <= max_signed w ->
             static_cast_signed w (binary_round prec emax s p 0) =
             ret (cond_Zopp s (Zpos p))).
  { intros s p Hp Hrange.
    destruct (binary_round_integer s p Hp) as [m [e [-> [He Hm]]]].
    unfold static_cast_signed.
    assert (Ht : Z.shiftl (Zpos m) e = Zpos p).
    { replace e with (- - e) by ring.
      rewrite Z.shiftl_opp_r, Z.shiftr_div_pow2 by lia.
      rewrite Hm. apply Z.div_mul.
      apply Z.pow_nonzero; lia. }
    rewrite Ht.
    destruct (Z.leb_spec (min_signed w) (cond_Zopp s (Zpos p))); [|lia].
    destruct (Z.leb_spec (cond_Zopp s (Zpos p)) (max_signed w)); [|lia].
    reflexivity. }
  destruct n as [|p|p]; [congruence| |].
  - apply (Hgen false p); [exact Habs | exact Hr].
  - apply (Hgen true p); [exact Habs | exact Hr].
Qed.

(** The conversion of [std::floor(x)] to the signed integer type yields the
    floor of the value of [x], whenever that integer is representable. *)
Lemma static_cast_signed_floor (w : word_size) (x : double) (q : Q) :
  valid_double x -> double_value x = Some q ->
  min_signed w <= Qfloor q <= max_signed w ->
  static_cast_signed w (std_floor x) = ret (Qfloor q).
Proof.
  intros Hv Hq Hr. destruct x as [s|s| |s m e]; simpl in Hq; try discriminate.
  - injection Hq as <-. reflexivity.
  - injection Hq as <-. rewrite Qfloor_finite in *.
    pose proof (valid_double_mantissa s m e Hv) as Hm.
    unfold std_floor. destruct (Z.leb_spec 0 e) as [He|He].
    + unfold static_cast_signed.
      rewrite cond_Zopp_shiftl in * by assumption.
      destruct (Z.leb_spec (min_signed w) (cond_Zopp s (Z.shiftl (Zpos m) e))); [|lia].
      destruct (Z.leb_spec (cond_Zopp s (Z.shiftl (Zpos m) e)) (max_signed w)); [|lia].
      reflexivity.
    + assert (Habs : Z.abs (Z.shiftl (cond_Zopp s (Zpos m)) e) <= Zpos m).
      { replace e with (- - e) by ring.
        rewrite Z.shiftl_opp_r, Z.shiftr_div_pow2 by lia.
        assert (Hp : 0 < 2 ^ (- e)) by (apply Z.pow_pos_nonneg; lia).
        destruct s; simpl.
        - assert (- Zpos m <= Z.neg m / 2 ^ (- e) <= 0); [|lia].
          split.
          + apply Z.div_le_lower_bound; [lia|]. nia.
          + apply Z.div_le_upper_bound; [lia|]. lia.
        - assert (0 <= Zpos m / 2 ^ (- e) <= Zpos m); [|lia].
          split.
          + apply Z.div_pos; lia.
          + apply Z.div_le_upper_bound; [lia|]. nia. }
      destruct (Z.shiftl (cond_Zopp s (Zpos m)) e) as [|p|p] eqn:En.
      * reflexivity.
      * apply static_cast_signed_of_integer; [discriminate | lia | exact Hr].
      * apply static_cast_signed_of_integer; [discriminate | lia | exact Hr].
Qed.

(** A value in [[0, 1)] floors to the integer zero. *)
Lemma static_cast_signed_floor_unit (w : word_size) (x : double) (q : Q) :
  double_value x = Some q -> (0 <= q)%Q -> (q < 1)%Q ->
  static_cast_signed w (std_floor x) = ret 0.
Proof.
  intros Hq H0 H1.
  assert (Hf : Qfloor q = 0).
  { pose proof (Qfloor_resp_le 0 q H0) as Hlo. simpl in Hlo.
    pose proof (Qfloor_le q) as Hle.
    assert (Hlt : (inject_Z (Qfloor q) < inject_Z 1)%Q).
    { eapply Qle_lt_trans; [exact Hle | exact H1]. }
    rewrite <- Zlt_Qlt in Hlt. rewrite Z.div_1_r in Hlo. lia. }
  destruct x as [s|s| |s m e]; simpl in Hq; try discriminate.
  - reflexivity.
  - injection Hq as <-. rewrite Qfloor_finite in Hf.
    unfold std_floor. destruct (Z.leb_spec 0 e) as [He|He].
    + exfalso. rewrite Z.shiftl_mul_pow2 in Hf by assumption.
      assert (0 < 2 ^ e) by (apply Z.pow_pos_nonneg; lia).
      apply Z.mul_eq_0 in Hf. destruct Hf as [Hf|Hf]; [|lia].
      destruct s; discriminate Hf.
    + rewrite Hf. reflexivity.
Qed.

(** ** The single-axis primitive *)

Lemma kFib_fibonacci_constant (w : word_size) :
  detail.kFib w = fibonacci_constant w.
Proof. destruct w; reflexivity. Qed.

Lemma static_cast_signed_cases (w : word_size) (x : double) :
  (exists z, static_cast_signed w x = ret z) \/ static_cast_signed w x = undefined.
Proof.
  destruct x as [s|s| |s m e]; simpl; eauto.
  destruct ((min_signed w <=? cond_Zopp s (Z.shiftl (Zpos m) e)) &&
            (cond_Zopp s (Z.shiftl (Zpos m) e) <=? max_signed w)); eauto.
Qed.

Lemma rotation_amount_range (w : word_size) (D I : nat) :
  (I < D)%nat ->
  0 <= digits w / Z.of_nat D * Z.of_nat I < digits w.
Proof.
  intros HI. pose proof (digits_pos w) as Hw.
  assert (HD : 0 < Z.of_nat D) by lia.
  pose proof (Z.mul_div_le (digits w) (Z.of_nat D) HD) as Hle.
  assert (0 <= digits w / Z.of_nat D) by (apply Z.div_pos; lia).
  nia.
Qed.

Lemma size_mul_rotation_amount (w : word_size) (D I : nat) :
  (I < D)%nat ->
  size_mul w (digits w / Z.of_nat D) (Z.of_nat I) =
  digits w / Z.of_nat D * Z.of_nat I.
Proof.
  intros HI. pose proof (rotation_amount_range w D I HI).
  pose proof (digits_lt_modulus w).
  unfold size_mul, wrap. apply Z.mod_small. lia.
Qed.

Lemma size_sub_rotation_amount (w : word_size) (k : Z) :
  0 < k < digits w -> size_sub w (digits w) k = digits w - k.
Proof.
  intros Hk. pose proof (digits_lt_modulus w).
  unfold size_sub, wrap. apply Z.mod_small. lia.
Qed.

(** The execution of [floor_and_fibo_hash] once the conversion to an integer
    is defined and the rotation amount is less than the width of the word. *)
Lemma floor_and_fibo_hash_defined (w : word_size) (N I : Z) (value : double) (z : Z) :
  static_cast_signed w (std_floor value) = ret z ->
  size_mul w N I < digits w ->
  detail.floor_and_fibo_hash w N I value =
  Exec (if size_mul w N I =? 0 then []
        else [size_mul w N I; digits w - size_mul w N I])
       (Some (axis_hash w z N I)).
Proof.
  intros Hcast Hk. unfold detail.floor_and_fibo_hash.
  rewrite Hcast, bind_ret. cbv zeta.
  unfold axis_hash, static_cast_unsigned.
  rewrite kFib_fibonacci_constant.
  change (2 ^ digits w) with (modulus w).
  change (fun x => x mod modulus w) with (wrap w).
  fold (wrap w z). fold (wrap w (fibonacci_constant w * wrap w z)).
  set (p := wrap w (fibonacci_constant w * wrap w z)).
  assert (Hp : 0 <= p < 2 ^ digits w) by apply wrap_range.
  rewrite <- (rotate_left_mod w p (N * I)).
  change (2 ^ digits w) with (modulus w) in |- *.
  fold (wrap w (N * I)). fold (size_mul w N I).
  assert (Hk0 : 0 <= size_mul w N I) by apply wrap_range.
  destruct (Z.eqb_spec (size_mul w N I) 0) as [E|E]; simpl.
  - rewrite E, rotate_left_0 by exact Hp. reflexivity.
  - set (k := size_mul w N I) in *.
    rewrite size_sub_rotation_amount by lia.
    unfold shl, shr, shift_in_range, bind, ret. simpl.
    destruct (Z.leb_spec 0 k); [|lia].
    destruct (Z.ltb_spec k (digits w)); [|lia].
    destruct (Z.leb_spec 0 (digits w - k)); [|lia].
    destruct (Z.ltb_spec (digits w - k) (digits w)); [|lia].
    simpl. rewrite shifts_rotate by (auto; lia). reflexivity.
Qed.

Lemma floor_and_fibo_hash_undefined (w : word_size) (N I : Z) (value : double) :
  static_cast_signed w (std_floor value) = undefined ->
  detail.floor_and_fibo_hash w N I value = undefined.
Proof.
  intros Hcast. unfold detail.floor_and_fibo_hash. rewrite Hcast. reflexivity.
Qed.

Lemma rotate_left_zero (w : word_size) (k : Z) : rotate_left w 0 k = 0.
Proof.
  apply Z.bits_inj'. intros j Hj.
  rewrite rotate_left_spec by assumption.
  rewrite !Z.bits_0. apply andb_false_r.
Qed.

Lemma axis_hash_zero (w : word_size) (N I : Z) : axis_hash w 0 N I = 0.
Proof.
  unfold axis_hash. rewrite Z.mod_0_l by (pose proof (modulus_pos w); unfold modulus in *; lia).
  rewrite Z.mul_0_r.
  rewrite Z.mod_0_l by (pose proof (modulus_pos w); unfold modulus in *; lia).
  apply rotate_left_zero.
Qed.

(** Every shift evaluated by the primitive, as instantiated by [hash_impl], has
    an amount strictly between zero and the width of the word. *)
Lemma floor_and_fibo_hash_shifts (w : word_size) (D I : nat) (value : double) :
  (I < D)%nat ->
  Forall (fun a => 0 < a < digits w)
    (shifts (detail.floor_and_fibo_hash w (digits w / Z.of_nat D) (Z.of_nat I) value)).
Proof.
  intros HI.
  pose proof (rotation_amount_range w D I HI) as Hr.
  pose proof (size_mul_rotation_amount w D I HI) as Hs.
  destruct (static_cast_signed_cases w (std_floor value)) as [[z Hz]|Hu].
  - rewrite (floor_and_fibo_hash_defined w _ _ value z Hz) by lia.
    rewrite Hs. simpl.
    destruct (Z.eqb_spec (digits w / Z.of_nat D * Z.of_nat I) 0).
    + constructor.
    + repeat constructor; lia.
  - rewrite floor_and_fibo_hash_undefined by assumption. constructor.
Qed.

(** ** The fold over the axes *)

Lemma xor_option_assoc (a b c : option Z) :
  xor_option a (xor_option b c) = xor_option (xor_option a b) c.
Proof.
  destruct a, b, c; simpl; try reflexivity.
  rewrite Z.lxor_assoc. reflexivity.
Qed.

Lemma xor_option_comm (a b : option Z) : xor_option a b = xor_option b a.
Proof.
  destruct a, b; simpl; try reflexivity.
  rewrite Z.lxor_comm. reflexivity.
Qed.

Lemma xor_option_0_r (a : option Z) : xor_option a (Some 0) = a.
Proof. destruct a; simpl; [rewrite Z.lxor_0_r|]; reflexivity. Qed.

Lemma xor_words_fold_right (words : list (option Z)) :
  xor_words words = fold_right xor_option (Some 0) words.
Proof.
  unfold xor_words. apply fold_symmetric.
  - intros; apply xor_option_assoc.
  - intros; apply xor_option_comm.
Qed.

(** The right fold without an initial value and the fold from zero agree on
    the result, for a pack that is not empty. *)
Lemma result_fold_xor (operands : list (exec Z)) :
  operands <> [] ->
  result (detail.fold_xor operands) = xor_words (map result operands).
Proof.
  intros Hne. rewrite xor_words_fold_right.
  induction operands as [|e rest IH]; [congruence|].
  destruct rest as [|e' rest'].
  - simpl. rewrite xor_option_0_r. reflexivity.
  - change (detail.fold_xor (e :: e' :: rest'))
      with (a <- e ;; b <- detail.fold_xor (e' :: rest') ;; ret (Z.lxor a b)).
    rewrite result_bind.
    change (map result (e :: e' :: rest'))
      with (result e :: map result (e' :: rest')).
    change (fold_right xor_option (Some 0) (result e :: map result (e' :: rest')))
      with (xor_option (result e)
              (fold_right xor_option (Some 0) (map result (e' :: rest')))).
    rewrite <- IH by discriminate.
    destruct (result e) as [a|]; [|reflexivity].
    rewrite result_bind.
    destruct (result (detail.fold_xor (e' :: rest'))); reflexivity.
Qed.

Lemma Forall_shifts_fold_xor (P : Z -> Prop) (operands : list (exec Z)) :
  Forall (fun e => Forall P (shifts e)) operands ->
  Forall P (shifts (detail.fold_xor operands)).
Proof.
  induction operands as [|e rest IH]; intros H.
  - constructor.
  - inversion H as [|? ? He Hrest]; subst.
    destruct rest as [|e' rest'].
    + exact He.
    + change (detail.fold_xor (e :: e' :: rest'))
        with (a <- e ;; b <- detail.fold_xor (e' :: rest') ;; ret (Z.lxor a b)).
      apply Forall_shifts_bind; [exact He|]. intros a.
      apply Forall_shifts_bind; [apply IH; exact Hrest|]. intros b.
      constructor.
Qed.

Lemma xor_words_zeros (words : list (option Z)) :
  Forall (fun word => word = Some 0) words -> xor_words words = Some 0.
Proof.
  rewrite xor_words_fold_right.
  induction 1 as [|word rest Hw _ IH]; simpl; [reflexivity|].
  rewrite IH, Hw. reflexivity.
Qed.

Lemma xor_words_defined (words : list (option Z)) :
  Forall (fun word => word <> None) words -> xor_words words <> None.
Proof.
  rewrite xor_words_fold_right.
  induction 1 as [|word rest Hw _ IH]; simpl; [discriminate|].
  destruct word; [|congruence].
  destruct (fold_right xor_option (Some 0) rest); [discriminate|congruence].
Qed.

(** ** The multi-axis hash *)

Section HashImpl.

Context {T : Type} `{Arithmetic T}.

(** The operand of the fold for one axis. *)
Lemma hash_impl_axis (w : word_size) (kBits : Z) (value : list T)
    (resolution : list double) (i : nat) (a : T) (c : double) :
  nth_error value i = Some a -> nth_error resolution i = Some c ->
  (v <- detail.get i value ;;
   r <- detail.get i resolution ;;
   detail.floor_and_fibo_hash w kBits (Z.of_nat i) (fdiv (to_double v) r)) =
  detail.floor_and_fibo_hash w kBits (Z.of_nat i) (fdiv (to_double a) c).
Proof.
  intros Ha Hc. unfold detail.get. rewrite Ha, Hc, !bind_ret. reflexivity.
Qed.

Lemma nth_error_defined {A : Type} (l : list A) (i : nat) :
  (i < length l)%nat -> exists a, nth_error l i = Some a.
Proof.
  intros Hi. destruct (nth_error l i) as [a|] eqn:E; [eauto|].
  apply nth_error_None in E. lia.
Qed.

(** [hash_impl] refines the Combiner of the specification. *)
Lemma hash_impl_combine (w : word_size) (D : nat) (axes : list T)
    (resolutions : list double) :
  (1 <= D)%nat ->
  result (detail.hash_impl w axes resolutions (make_index_sequence D)) =
  combine w D axes resolutions.
Proof.
  intros HD. unfold detail.hash_impl, combine, make_index_sequence.
  rewrite length_seq.
  rewrite result_fold_xor.
  - rewrite map_map. f_equal. apply map_ext. intros i.
    unfold detail.get.
    destruct (nth_error axes i) as [a|]; [|reflexivity].
    rewrite bind_ret.
    destruct (nth_error resolutions i) as [c|]; [|reflexivity].
    rewrite bind_ret. reflexivity.
  - destruct D; [lia|]. discriminate.
Qed.

Lemma hash_impl_shifts (w : word_size) (D : nat) (value : list T)
    (resolution : list double) :
  Forall (fun a => 0 < a < digits w)
    (shifts (detail.hash_impl w value resolution (make_index_sequence D))).
Proof.
  unfold detail.hash_impl, make_index_sequence. rewrite length_seq.
  apply Forall_shifts_fold_xor. apply Forall_map. apply Forall_forall.
  intros i Hi. apply in_seq in Hi.
  apply Forall_shifts_bind; [unfold detail.get; destruct (nth_error value i); constructor|].
  intros v.
  apply Forall_shifts_bind; [unfold detail.get; destruct (nth_error resolution i); constructor|].
  intros r. apply floor_and_fibo_hash_shifts. lia.
Qed.

End HashImpl.

(** ** Equality of doubles *)

Lemma double_eq_cases (a b : double) :
  double_eq a b ->
  a = b \/ exists s1 s2, a = S754_zero s1 /\ b = S754_zero s2.
Proof.
  unfold double_eq, SFeqb.
  destruct a as [s1|s1| |s1 m1 e1], b as [s2|s2| |s2 m2 e2]; simpl;
    try discriminate; try (destruct s1; discriminate);
    try (destruct s2; discriminate).
  - intros _. right. eauto.
  - destruct s1, s2; try discriminate; auto.
  - intros Heq. left.
    destruct s1, s2; try discriminate;
      destruct (Z.compare_spec e1 e2) as [->| |]; try discriminate;
      destruct (Pos.compare_cont Eq m1 m2) eqn:Em; try discriminate;
      apply Pos.compare_eq in Em; subst; reflexivity.
Qed.

Lemma double_eq_static_cast (w : word_size) (a b : double) :
  double_eq a b -> static_cast_signed w a = static_cast_signed w b.
Proof.
  intros Heq. destruct (double_eq_cases a b Heq) as [->|[s1 [s2 [-> ->]]]];
    reflexivity.
Qed.

Lemma floor_and_fibo_hash_cast (w : word_size) (N I : Z) (q1 q2 : double) :
  static_cast_signed w (std_floor q1) = static_cast_signed w (std_floor q2) ->
  detail.floor_and_fibo_hash w N I q1 = detail.floor_and_fibo_hash w N I q2.
Proof.
  intros Heq. unfold detail.floor_and_fibo_hash. rewrite Heq. reflexivity.
Qed.


(** The hash is defined as soon as the bucket of every axis is representable
    in the signed integer type. *)
Lemma hash_impl_total {T : Type} `{Arithmetic T} (w : word_size) (D : nat)
    (value : list T) (resolution : list double) :
  (1 <= D)%nat -> length value = D -> length resolution = D ->
  (forall i a c, nth_error value i = Some a -> nth_error resolution i = Some c ->
     static_cast_signed w (std_floor (fdiv (to_double a) c)) <> undefined) ->
  result (detail.hash_impl w value resolution (make_index_sequence D)) <> None.
Proof.
  intros HD Hv Hr Hcast. rewrite hash_impl_combine by exact HD.
  unfold combine. apply xor_words_defined. apply Forall_map, Forall_forall.
  intros i Hi. apply in_seq in Hi.
  destruct (nth_error_defined value i) as [a Ha]; [lia|].
  destruct (nth_error_defined resolution i) as [c Hc]; [lia|].
  rewrite Ha, Hc.
  destruct (static_cast_signed_cases w (std_floor (fdiv (to_double a) c)))
    as [[z Hz]|Hu].
  - rewrite (floor_and_fibo_hash_defined w _ _ _ z Hz).
    + discriminate.
    + rewrite size_mul_rotation_amount by lia.
      apply rotation_amount_range. lia.
  - exfalso. exact (Hcast i a c Ha Hc Hu).
Qed.

(** Axes whose floors are equal under [==] give the same execution of
    [hash_impl]. *)
Lemma hash_impl_bucket_equivalence {T : Type} `{Arithmetic T}
    (w : word_size) (D : nat) (r : list double) (v1 v2 : list T) :
  length r = D -> length v1 = D -> length v2 = D ->
  (forall i a b c,
     nth_error v1 i = Some a -> nth_error v2 i = Some b ->
     nth_error r i = Some c ->
     double_eq (std_floor (fdiv (to_double a) c))
               (std_floor (fdiv (to_double b) c))) ->
  detail.hash_impl w v1 r (make_index_sequence D) =
  detail.hash_impl w v2 r (make_index_sequence D).
Proof.
  intros Hr H1 H2 Hfloor.
  unfold detail.hash_impl, make_index_sequence.
  f_equal. apply map_ext_in. intros i Hi. apply in_seq in Hi.
  destruct (nth_error_defined v1 i) as [a Ha]; [lia|].
  destruct (nth_error_defined v2 i) as [b Hb]; [lia|].
  destruct (nth_error_defined r i) as [c Hc]; [lia|].
  rewrite (hash_impl_axis w _ v1 r i a c Ha Hc).
  rewrite (hash_impl_axis w _ v2 r i b c Hb Hc).
  apply floor_and_fibo_hash_cast, double_eq_static_cast.
  exact (Hfloor i a b c Ha Hb Hc).
Qed.

(** The state whose quotients all lie in [[0, 1)] hashes to zero. *)
Lemma hash_impl_origin {T : Type} `{Arithmetic T}
    (w : word_size) (D : nat) (r : list double) (v : list T) :
  (1 <= D)%nat -> length r = D -> length v = D ->
  (forall i a c,
     nth_error v i = Some a -> nth_error r i = Some c ->
     exists q, double_value (fdiv (to_double a) c) = Some q /\
               (0 <= q)%Q /\ (q < 1)%Q) ->
  result (detail.hash_impl w v r (make_index_sequence D)) = Some 0.
Proof.
  intros HD Hr Hv Hunit.
  rewrite hash_impl_combine by exact HD.
  unfold combine. apply xor_words_zeros. apply Forall_map, Forall_forall.
  intros i Hi. apply in_seq in Hi.
  destruct (nth_error_defined v i) as [a Ha]; [lia|].
  destruct (nth_error_defined r i) as [c Hc]; [lia|].
  rewrite Ha, Hc.
  destruct (Hunit i a c Ha Hc) as [q [Hq [H0 H1]]].
  pose proof (static_cast_signed_floor_unit w _ q Hq H0 H1) as Hcast.
  rewrite (floor_and_fibo_hash_defined w _ _ _ 0 Hcast).
  - simpl. rewrite axis_hash_zero. reflexivity.
  - rewrite size_mul_rotation_amount by lia.
    apply rotation_amount_range. lia.
Qed.

(** ** Properties of the specification *)

(** C2, reference definition of AxisHash, on the values and rotation amounts
    for which the conversion and the shifts are defined: for every binary64
    value whose floor fits the signed integer type, and every bit count [N]
    and axis index [I] whose product in [std::size_t] is less than the width
    of the word, the single-axis primitive floors the value toward negative
    infinity (so [-0.3] at resolution [1.0] lands in bucket [-1]),
    reinterprets the two's-complement pattern of that integer as unsigned,
    multiplies with wrap-around by [2654435769] on 32-bit words or
    [11400714819323198485] on 64-bit words, and left-rotates the product by
    [N * I] positions, the bits pushed off the top re-entering at the bottom;
    the product is returned unrotated when the rotation amount is zero. *)
Theorem axis_hash_reference
    (w : word_size) (N I : Z) (value : double) (q : Q) :
  valid_double value -> double_value value = Some q ->
  min_signed w <= Qfloor q <= max_signed w ->
  size_mul w N I < digits w ->
  let product := (fibonacci_constant w * (Qfloor q mod 2 ^ digits w))
                   mod 2 ^ digits w in
  result (detail.floor_and_fibo_hash w N I value) =
    Some (rotate_left w product (N * I)) /\
  (forall j, 0 <= j < digits w ->
     Z.testbit (rotate_left w product (N * I)) j =
     Z.testbit product ((j - N * I) mod digits w)) /\
  (size_mul w N I = 0 ->
     result (detail.floor_and_fibo_hash w N I value) = Some product) /\
  detail.kFib W32 = 2654435769 /\
  detail.kFib W64 = 11400714819323198485 /\
  bucket (literal (-3) 10) (of_int 1) = Some (-1).
Proof.
  intros Hv Hq Hr Hk product.
  pose proof (static_cast_signed_floor w value q Hv Hq Hr) as Hcast.
  pose proof (floor_and_fibo_hash_defined w N I value (Qfloor q) Hcast Hk) as Hrun.
  assert (Hres : result (detail.floor_and_fibo_hash w N I value) =
                 Some (rotate_left w product (N * I))).
  { rewrite Hrun. reflexivity. }
  split; [exact Hres|]. split; [|split; [|repeat split]].
  - intros j Hj. rewrite rotate_left_spec by lia.
    destruct (Z.ltb_spec j (digits w)); [reflexivity | lia].
  - intros Hk0. rewrite Hres. f_equal.
    rewrite <- rotate_left_mod.
    change ((N * I) mod 2 ^ digits w) with (size_mul w N I).
    rewrite Hk0. apply rotate_left_0.
    apply Z.mod_pos_bound. pose proof (modulus_pos w). exact H.
Qed.

Lemma axis_hash_reference_witness :
  result (detail.floor_and_fibo_hash W64 32 1 (literal (-3) 10)) =
  Some (rotate_left W64
          ((fibonacci_constant W64 * (-1 mod 2 ^ digits W64)) mod 2 ^ digits W64)
          (32 * 1)).
Proof.
  apply (axis_hash_reference W64 32 1 (literal (-3) 10)
           (inject_Z (-5404319552844595) * 2 ^ (-54))%Q).
  - vm_compute. reflexivity.
  - vm_compute. reflexivity.
  - split; vm_compute; discriminate.
  - vm_compute. reflexivity.
Defined.

(** For other bit counts and values the primitive returns no word: with
    [N = 32] and [I = 3] on a 64-bit word the rotation amount is [96], the
    shift is undefined, and the value [1.0] is not mapped to the rotation by
    [96] positions of its product; a NaN and a value whose floor does not fit
    the signed integer type have no conversion to an integer. *)
Lemma axis_hash_reference_counterexample :
  result (detail.floor_and_fibo_hash W64 32 3 (of_int 1)) <>
    Some (rotate_left W64
            ((fibonacci_constant W64 * (1 mod 2 ^ digits W64)) mod 2 ^ digits W64)
            (32 * 3)) /\
  result (detail.floor_and_fibo_hash W64 32 3 (of_int 1)) = None /\
  rotate_left W64
    ((fibonacci_constant W64 * (1 mod 2 ^ digits W64)) mod 2 ^ digits W64)
    (32 * 3) = 9172280023384029625 /\
  result (detail.floor_and_fibo_hash W64 32 1 S754_nan) = None /\
  result (detail.floor_and_fibo_hash W64 32 1 (of_int (2 ^ 63))) = None.
Proof.
  repeat split; try reflexivity. vm_compute. discriminate.
Qed.

(** C3, reference definition of the Combiner: for every dimensionality
    [D >= 1], the multi-axis hash takes [bits_per_axis] to be the width of the
    word divided by [D] with truncating division, passes for each axis [i] in
    [0..D] the quotient [axes[i] / resolutions[i]] to the single-axis
    primitive with that [bits_per_axis] and the axis index [i], and XOR-folds
    the [D] resulting words into the word it returns. *)
Theorem combiner_reference {T : Type} `{Arithmetic T}
    (w : word_size) (D : nat) (axes : list T) (resolutions : list double) :
  (1 <= D)%nat -> length axes = D -> length resolutions = D ->
  let bits_per_axis := digits w / Z.of_nat D in
  result (detail.hash_impl w axes resolutions (make_index_sequence D)) =
    combine w D axes resolutions /\
  exists words,
    length words = D /\
    (forall i a r,
       nth_error axes i = Some a -> nth_error resolutions i = Some r ->
       nth_error words i =
       Some (result (detail.floor_and_fibo_hash w bits_per_axis (Z.of_nat i)
                       (fdiv (to_double a) r)))) /\
    result (detail.hash_impl w axes resolutions (make_index_sequence D)) =
      xor_words words.
Proof.
  intros HD Ha Hr bits_per_axis.
  split; [apply hash_impl_combine; exact HD|].
  rewrite hash_impl_combine by exact HD. unfold combine.
  fold bits_per_axis.
  eexists. split; [|split; [|reflexivity]].
  - rewrite length_map, length_seq. reflexivity.
  - intros i a r Hia Hir.
    assert (Hi : (i < D)%nat).
    { rewrite <- Ha. apply nth_error_Some. congruence. }
    rewrite nth_error_map, nth_error_seq.
    destruct (Nat.ltb_spec i D); [|lia]. simpl.
    rewrite Hia, Hir. reflexivity.
Qed.

Lemma combiner_reference_witness :
  result (detail.hash_impl W64 [literal 14 10; literal 29 10]
            [of_int 1; of_int 1] (make_index_sequence 2)) =
  combine W64 2 [literal 14 10; literal 29 10] [of_int 1; of_int 1].
Proof.
  apply (combiner_reference (T := double) W64 2); try reflexivity.
  apply le_S, le_n.
Defined.



(** C5, concrete scenario on a fixed sequence: the array hasher constructed
    with the resolution vector [(1.0, 1.0)] returns for the state [[1.0, 2.0]]
    the same word as for [[1.4, 2.9]], and that word differs from the word
    returned for [[2.0, 2.0]]. *)
Theorem scenario_fixed_sequence (w : word_size) :
  result (spatial_hash_array.call w
            (spatial_hash_array.make (T := double) 2 [of_int 1; of_int 1])
            [of_int 1; of_int 2]) =
  result (spatial_hash_array.call w
            (spatial_hash_array.make (T := double) 2 [of_int 1; of_int 1])
            [literal 14 10; literal 29 10]) /\
  result (spatial_hash_array.call w
            (spatial_hash_array.make (T := double) 2 [of_int 1; of_int 1])
            [of_int 1; of_int 2]) <>
  result (spatial_hash_array.call w
            (spatial_hash_array.make (T := double) 2 [of_int 1; of_int 1])
            [of_int 2; of_int 2]) /\
  result (spatial_hash_array.call w
            (spatial_hash_array.make (T := double) 2 [of_int 1; of_int 1])
            [of_int 1; of_int 2]) <> None.
Proof.
  destruct w; vm_compute; repeat split; discriminate.
Qed.

(** C6, concrete scenario on poses: for the pose hasher constructed with the
    linear resolution [0.1] and the angular resolution [0.1], the pose with
    translation [(0.05, 0.05)] and angle [0.01] hashes to the same word as the
    pose with translation [(0.09, 0.02)] and angle [0.05], and that word
    differs from the hash of the pose with translation [(0.15, 0.05)] and
    angle [0.01]. *)
Theorem scenario_pose (w : word_size) :
  let hasher := spatial_hash_SE2d.make2 (literal 1 10) (literal 1 10) in
  let pose px py theta :=
    {| Sophus.so2 := {| Sophus.log := theta |};
       Sophus.translation := {| Sophus.x := px; Sophus.y := py |} |} in
  result (spatial_hash_SE2d.call w hasher
            (pose (literal 5 100) (literal 5 100) (literal 1 100))) =
  result (spatial_hash_SE2d.call w hasher
            (pose (literal 9 100) (literal 2 100) (literal 5 100))) /\
  result (spatial_hash_SE2d.call w hasher
            (pose (literal 5 100) (literal 5 100) (literal 1 100))) <>
  result (spatial_hash_SE2d.call w hasher
            (pose (literal 15 100) (literal 5 100) (literal 1 100))) /\
  result (spatial_hash_SE2d.call w hasher
            (pose (literal 5 100) (literal 5 100) (literal 1 100))) <> None.
Proof.
  destruct w; vm_compute; repeat split; discriminate.
Qed.

(** C7, default pose resolution: a pose hasher constructed with no arguments
    uses the resolution [1.0] on every axis: it returns, for every pose, the
    same hash word as a pose hasher constructed with the resolutions
    [(1.0, 1.0, 1.0)]. *)
Theorem default_pose_resolution (w : word_size) (state : Sophus.SE2d) :
  spatial_hash_SE2d.call w spatial_hash_SE2d.default state =
  spatial_hash_SE2d.call w
    (spatial_hash_SE2d.make3 (literal 10 10) (literal 10 10) (literal 10 10))
    state /\
  spatial_hash_SE2d.default =
  spatial_hash_SE2d.make3 (of_int 1) (of_int 1) (of_int 1) /\
  Forall (fun r => exists q, double_value r = Some q /\ (q == 1)%Q)
    (spatial_hash_tuple.resolution_
       (spatial_hash_SE2d.underlying_hasher_ spatial_hash_SE2d.default)).
Proof.
  split; [|split].
  - reflexivity.
  - reflexivity.
  - repeat constructor; eexists; (split; [reflexivity|]); reflexivity.
Qed.

(** C8, pose-to-tuple refinement: for every configuration of the pose hasher
    and every 2D rigid pose, the hash of the pose hasher is the hash that the
    heterogeneous-tuple hasher with the same three resolutions gives for the
    3-tuple [(x, y, theta)], where [x] and [y] are the translation components
    of the pose and [theta] is the angle extracted from its rotation by the
    logarithm. *)
Theorem pose_tuple_refinement
    (w : word_size) (hasher : spatial_hash_SE2d.t) (state : Sophus.SE2d) :
  spatial_hash_SE2d.call w hasher state =
  spatial_hash_tuple.call w
    (spatial_hash_tuple.make 3
       (spatial_hash_tuple.resolution_
          (spatial_hash_SE2d.underlying_hasher_ hasher)))
    (pose_tuple state) /\
  (forall rx ry rtheta,
     spatial_hash_SE2d.call w (spatial_hash_SE2d.make3 rx ry rtheta) state =
     spatial_hash_tuple.call w (spatial_hash_tuple.make 3 [rx; ry; rtheta])
       (pose_tuple state)) /\
  (forall rlinear rangular,
     spatial_hash_SE2d.call w (spatial_hash_SE2d.make2 rlinear rangular) state =
     spatial_hash_tuple.call w
       (spatial_hash_tuple.make 3 [rlinear; rlinear; rangular])
       (pose_tuple state)) /\
  result (spatial_hash_SE2d.call w hasher state) =
  combine w 3 (pose_tuple state)
    (spatial_hash_tuple.resolution_
       (spatial_hash_SE2d.underlying_hasher_ hasher)).
Proof.
  split; [|split; [|split]].
  - destruct hasher as [[resolution]]. reflexivity.
  - reflexivity.
  - reflexivity.
  - unfold spatial_hash_SE2d.call, spatial_hash_tuple.call.
    apply (hash_impl_combine (T := scalar) w 3). apply le_S, le_S, le_n.
Qed.

(** C9, rotation shift safety: for every dimensionality [D >= 1] and every
    axis index [I < D], with [N] the width of the word divided by [D], the
    rotation of the single-axis primitive never shifts by the width of the
    word or more: when [N * I] is not zero, the two shift amounts [N * I] and
    [digits - N * I] lie strictly between zero and the width, and when
    [N * I] is zero no shift is evaluated at all. *)
Theorem rotation_shift_safety (w : word_size) (D I : nat) :
  (1 <= D)%nat -> (I < D)%nat ->
  let N := digits w / Z.of_nat D in
  let k := size_mul w N (Z.of_nat I) in
  k = N * Z.of_nat I /\
  (k <> 0 ->
     0 < k < digits w /\ 0 < size_sub w (digits w) k < digits w /\
     forall value z,
       static_cast_signed w (std_floor value) = ret z ->
       shifts (detail.floor_and_fibo_hash w N (Z.of_nat I) value) =
       [k; size_sub w (digits w) k]) /\
  (k = 0 ->
     forall value,
       shifts (detail.floor_and_fibo_hash w N (Z.of_nat I) value) = []) /\
  (forall value,
     Forall (fun a => 0 < a < digits w)
       (shifts (detail.floor_and_fibo_hash w N (Z.of_nat I) value))) /\
  (forall value resolution : list double,
     Forall (fun a => 0 < a < digits w)
       (shifts (detail.hash_impl w value resolution (make_index_sequence D)))).
Proof.
  intros _ HI N k.
  pose proof (rotation_amount_range w D I HI) as Hrange.
  pose proof (size_mul_rotation_amount w D I HI) as Hk.
  fold N in Hrange, Hk. fold k in Hk.
  split; [exact Hk|]. split; [|split; [|split]].
  - intros Hnz.
    assert (Hpos : 0 < k < digits w) by lia.
    rewrite (size_sub_rotation_amount w k Hpos).
    split; [exact Hpos|]. split; [lia|].
    intros value z Hz.
    rewrite (floor_and_fibo_hash_defined w N (Z.of_nat I) value z Hz)
      by (fold k; lia).
    fold k. simpl. destruct (Z.eqb_spec k 0); [contradiction | reflexivity].
  - intros Hz value.
    destruct (static_cast_signed_cases w (std_floor value)) as [[z Hcast]|Hu].
    + rewrite (floor_and_fibo_hash_defined w N (Z.of_nat I) value z Hcast)
        by (fold k; lia).
      fold k. rewrite Hz. reflexivity.
    + rewrite floor_and_fibo_hash_undefined by exact Hu. reflexivity.
  - intros value. apply floor_and_fibo_hash_shifts. exact HI.
  - intros value resolution. apply hash_impl_shifts.
Qed.

Lemma rotation_shift_safety_witness :
  size_mul W64 (digits W64 / 3) 2 = 42 /\
  forall value,
    Forall (fun a => 0 < a < 64)
      (shifts (detail.floor_and_fibo_hash W64 (digits W64 / 3) 2 value)).
Proof.
  destruct (rotation_shift_safety W64 3 2) as [Hk [_ [_ [Hs _]]]].
  - apply le_S, le_S, le_n.
  - apply le_n.
  - split; [exact Hk | exact Hs].
Defined.

(** C10, the origin cell hashes to zero: for every dimensionality [D >= 1]
    and every resolution vector [r], a state [v] whose quotient [v[i] / r[i]]
    lies in [[0, 1)] on every axis [i] is mapped to the hash word [0]: every
    axis contributes the multiplicative hash of zero, which is zero, and the
    XOR-fold of zeros is zero. *)
Theorem origin_cell_hashes_to_zero {T : Type} `{Arithmetic T}
    (w : word_size) (D : nat) (r : list double) (v : list T) :
  (1 <= D)%nat -> length r = D -> length v = D ->
  (forall i a c,
     nth_error v i = Some a -> nth_error r i = Some c ->
     exists q, double_value (fdiv (to_double a) c) = Some q /\
               (0 <= q)%Q /\ (q < 1)%Q) ->
  result (spatial_hash_array.call w (spatial_hash_array.make D r) v) = Some 0 /\
  result (detail.hash_impl w v r (make_index_sequence D)) = Some 0 /\
  (forall N I, axis_hash w 0 N I = 0) /\
  (forall n, xor_words (repeat (Some 0) n) = Some 0).
Proof.
  intros HD Hr Hv Hunit.
  split; [|split; [|split]].
  - apply hash_impl_origin; assumption.
  - apply hash_impl_origin; assumption.
  - apply axis_hash_zero.
  - intros n. apply xor_words_zeros. apply Forall_forall.
    intros word Hin. apply repeat_spec in Hin. exact Hin.
Qed.

Lemma origin_cell_hashes_to_zero_witness :
  result (spatial_hash_array.call W64
            (spatial_hash_array.make 2 [literal 1 10; literal 1 10])
            [literal 5 100; literal 9 100]) = Some 0.
Proof.
  apply (origin_cell_hashes_to_zero (T := double) W64 2); try reflexivity.
  - apply le_S, le_n.
  - intros [|[|i]] a c Ha Hc.
    + injection Ha as <-. injection Hc as <-.
      eexists. split; [vm_compute; reflexivity|].
      split; vm_compute; [discriminate | reflexivity].
    + injection Ha as <-. injection Hc as <-.
      eexists. split; [vm_compute; reflexivity|].
      split; vm_compute; [discriminate | reflexivity].
    + destruct i; discriminate Ha.
Defined.

(** ** Further properties of the code *)

(** *** The range of the hash word *)

Lemma bits_above_range (x n : Z) :
  0 <= n -> (forall j, n <= j -> Z.testbit x j = false) -> 0 <= x < 2 ^ n.
Proof.
  intros Hn Hhigh.
  assert (Hx : x = x mod 2 ^ n).
  { apply Z.bits_inj'. intros j Hj. rewrite Z.testbit_mod_pow2 by assumption.
    destruct (Z.ltb_spec j n); simpl; [reflexivity | apply Hhigh; assumption]. }
  rewrite Hx. apply Z.mod_pos_bound. apply Z.pow_pos_nonneg; lia.
Qed.

Lemma rotate_left_range (w : word_size) (x k : Z) :
  0 <= rotate_left w x k < 2 ^ digits w.
Proof.
  pose proof (digits_pos w).
  apply bits_above_range; [lia|]. intros j Hj.
  rewrite rotate_left_spec by lia.
  destruct (Z.ltb_spec j (digits w)); [lia | reflexivity].
Qed.

Lemma lxor_range (a b n : Z) :
  0 <= n -> 0 <= a < 2 ^ n -> 0 <= b < 2 ^ n -> 0 <= Z.lxor a b < 2 ^ n.
Proof.
  intros Hn Ha Hb. apply bits_above_range; [assumption|]. intros j Hj.
  rewrite Z.lxor_spec.
  rewrite (testbit_above a n j), (testbit_above b n j) by assumption.
  reflexivity.
Qed.

Lemma xor_words_range (n : Z) (words : list (option Z)) (h : Z) :
  0 <= n ->
  Forall (fun word => forall x, word = Some x -> 0 <= x < 2 ^ n) words ->
  xor_words words = Some h -> 0 <= h < 2 ^ n.
Proof.
  intros Hn HF. rewrite xor_words_fold_right. revert h.
  induction HF as [|word rest Hword _ IH]; simpl; intros h Hh.
  - injection Hh as <-. split; [lia | apply Z.pow_pos_nonneg; lia].
  - destruct word as [x|]; [|discriminate].
    destruct (fold_right xor_option (Some 0) rest) as [y|]; [|discriminate].
    injection Hh as <-. apply lxor_range; auto.
Qed.

Lemma floor_and_fibo_hash_range (w : word_size) (D i : nat) (q : double) (x : Z) :
  (i < D)%nat ->
  result (detail.floor_and_fibo_hash w (digits w / Z.of_nat D) (Z.of_nat i) q) =
    Some x ->
  0 <= x < 2 ^ digits w.
Proof.
  intros Hi Hx.
  destruct (static_cast_signed_cases w (std_floor q)) as [[z Hz]|Hu].
  - rewrite (floor_and_fibo_hash_defined w _ _ q z Hz) in Hx.
    + injection Hx as <-. apply rotate_left_range.
    + rewrite size_mul_rotation_amount by exact Hi.
      apply rotation_amount_range. exact Hi.
  - rewrite floor_and_fibo_hash_undefined in Hx by exact Hu. discriminate.
Qed.

(** Every hash that [hash_impl] returns fits the word: the embedding never
    leaves the range of [std::size_t]. *)
Lemma hash_impl_word_range {T : Type} `{Arithmetic T}
    (w : word_size) (D : nat) (value : list T) (resolution : list double)
    (h : Z) :
  (1 <= D)%nat ->
  result (detail.hash_impl w value resolution (make_index_sequence D)) = Some h ->
  0 <= h < 2 ^ digits w.
Proof.
  intros HD Hh. rewrite hash_impl_combine in Hh by exact HD.
  unfold combine in Hh.
  apply (xor_words_range (digits w) _ h) in Hh; [exact Hh | | ].
  - pose proof (digits_pos w). lia.
  - apply Forall_map, Forall_forall. intros i Hi x Hx. apply in_seq in Hi.
    cbv beta in Hx.
    destruct (nth_error value i) as [a|]; [|discriminate].
    destruct (nth_error resolution i) as [c|]; [|discriminate].
    apply (floor_and_fibo_hash_range w D i (fdiv (to_double a) c) x);
      [lia | exact Hx].
Qed.

(** *** The element type and the three variants *)


(** *** When the hash is defined *)

Lemma xor_words_undefined (words : list (option Z)) :
  In None words -> xor_words words = None.
Proof.
  rewrite xor_words_fold_right.
  induction words as [|word rest IH]; simpl; intros Hin; [contradiction|].
  destruct Hin as [->|Hin]; [reflexivity|].
  rewrite (IH Hin). destruct word; reflexivity.
Qed.

Lemma hash_impl_undefined_axis {T : Type} `{Arithmetic T}
    (w : word_size) (D : nat) (value : list T) (resolution : list double)
    (i : nat) (a : T) (c : double) :
  (1 <= D)%nat -> (i < D)%nat ->
  nth_error value i = Some a -> nth_error resolution i = Some c ->
  axis_signed_value w a c = undefined ->
  result (detail.hash_impl w value resolution (make_index_sequence D)) = None.
Proof.
  intros HD Hi Ha Hc Hu. rewrite hash_impl_combine by exact HD.
  unfold combine. apply xor_words_undefined.
  apply in_map_iff. exists i. split; [|apply in_seq; lia].
  rewrite Ha, Hc. rewrite floor_and_fibo_hash_undefined by exact Hu.
  reflexivity.
Qed.

(** The hash of a state is defined exactly when the conversion of the floored
    quotient to the signed integer type is defined on every axis. *)
Lemma hash_impl_defined_cast {T : Type} `{Arithmetic T}
    (w : word_size) (D : nat) (value : list T) (resolution : list double) :
  (1 <= D)%nat -> length value = D -> length resolution = D ->
  result (detail.hash_impl w value resolution (make_index_sequence D)) <> None <->
  (forall i a c,
     nth_error value i = Some a -> nth_error resolution i = Some c ->
     axis_signed_value w a c <> undefined).
Proof.
  intros HD Hv Hr. split.
  - intros Hdef i a c Ha Hc Hu. apply Hdef.
    apply (hash_impl_undefined_axis w D value resolution i a c); try assumption.
    rewrite <- Hv. apply nth_error_Some. congruence.
  - intros Hall. apply hash_impl_total; assumption.
Qed.

Lemma fdiv_undefined (w : word_size) (a c : double) :
  not_finite a \/ zero_or_nan c ->
  static_cast_signed w (std_floor (fdiv a c)) = undefined.
Proof.
  intros [Ha|Hc].
  - destruct a; simpl in Ha; try contradiction; destruct c; reflexivity.
  - destruct c; simpl in Hc; try contradiction; destruct a; reflexivity.
Qed.

(** A resolution that is zero or NaN, and a state element that is infinite or
    NaN, leave the hash undefined whatever the other axes are: the quotient
    is an infinity or a NaN, which has no conversion to an integer. *)
Theorem hash_impl_undefined_input {T : Type} `{Arithmetic T}
    (w : word_size) (D : nat) (value : list T) (resolution : list double)
    (i : nat) (a : T) (c : double) :
  (1 <= D)%nat ->
  nth_error value i = Some a -> nth_error resolution i = Some c -> (i < D)%nat ->
  not_finite (to_double a) \/ zero_or_nan c ->
  result (detail.hash_impl w value resolution (make_index_sequence D)) = None.
Proof.
  intros HD Ha Hc Hi Hbad.
  apply (hash_impl_undefined_axis w D value resolution i a c); try assumption.
  apply fdiv_undefined. exact Hbad.
Qed.

Lemma hash_impl_undefined_input_witness :
  result (detail.hash_impl W64 [of_int 1; of_int 2] [of_int 1; S754_zero false]
            (make_index_sequence 2)) = None.
Proof.
  apply (hash_impl_undefined_input (T := double) W64 2 _ _ 1%nat
           (of_int 2) (S754_zero false)).
  - apply le_S, le_n.
  - reflexivity.
  - reflexivity.
  - apply le_n.
  - right. exact I.
Defined.

(** *** Injectivity of the single-axis primitive *)

Lemma fibonacci_inverse_spec (w : word_size) :
  (fibonacci_inverse w * fibonacci_constant w) mod 2 ^ digits w = 1.
Proof. destruct w; reflexivity. Qed.

Lemma fibonacci_product_injective (w : word_size) (u1 u2 : Z) :
  0 <= u1 < 2 ^ digits w -> 0 <= u2 < 2 ^ digits w ->
  (fibonacci_constant w * u1) mod 2 ^ digits w =
  (fibonacci_constant w * u2) mod 2 ^ digits w ->
  u1 = u2.
Proof.
  intros H1 H2 Heq.
  assert (Hinv : forall u, 0 <= u < 2 ^ digits w ->
            (fibonacci_inverse w *
             ((fibonacci_constant w * u) mod 2 ^ digits w)) mod 2 ^ digits w = u).
  { intros u Hu.
    assert (Hm : 2 ^ digits w <> 0) by lia.
    rewrite Z.mul_mod_idemp_r by exact Hm.
    rewrite Z.mul_assoc, <- Z.mul_mod_idemp_l by exact Hm.
    rewrite fibonacci_inverse_spec, Z.mul_1_l. apply Z.mod_small. exact Hu. }
  rewrite <- (Hinv u1 H1), <- (Hinv u2 H2), Heq. reflexivity.
Qed.

Lemma wrap_signed_injective (w : word_size) (z1 z2 : Z) :
  min_signed w <= z1 <= max_signed w -> min_signed w <= z2 <= max_signed w ->
  z1 mod 2 ^ digits w = z2 mod 2 ^ digits w -> z1 = z2.
Proof.
  intros H1 H2 Heq.
  rewrite (Z.mod_eq z1), (Z.mod_eq z2) in Heq
    by (pose proof (modulus_pos w); unfold modulus in *; lia).
  revert H1 H2 Heq. unfold min_signed, max_signed.
  generalize (z1 / 2 ^ digits w), (z2 / 2 ^ digits w).
  destruct w; simpl digits; intros q1 q2;
    change (2 ^ 32) with 4294967296; change (2 ^ (32 - 1)) with 2147483648;
    change (2 ^ 64) with 18446744073709551616;
    change (2 ^ (64 - 1)) with 9223372036854775808; lia.
Qed.

Lemma rotate_left_injective (w : word_size) (x y k : Z) :
  0 <= x < 2 ^ digits w -> 0 <= y < 2 ^ digits w ->
  rotate_left w x k = rotate_left w y k -> x = y.
Proof.
  intros Hx Hy Heq. pose proof (digits_pos w) as Hw.
  apply Z.bits_inj'. intros i Hi.
  destruct (Z.lt_ge_cases i (digits w)) as [Hlt|Hge].
  - assert (Hj : 0 <= (i + k) mod digits w < digits w)
      by (apply Z.mod_pos_bound; lia).
    assert (Hback : ((i + k) mod digits w - k) mod digits w = i).
    { rewrite Zminus_mod_idemp_l.
      replace (i + k - k) with i by ring. apply Z.mod_small. lia. }
    pose proof (rotate_left_spec w x k ((i + k) mod digits w) (proj1 Hj)) as Bx.
    pose proof (rotate_left_spec w y k ((i + k) mod digits w) (proj1 Hj)) as By.
    rewrite Hback in Bx, By. rewrite Heq in Bx. rewrite Bx in By.
    destruct (Z.ltb_spec ((i + k) mod digits w) (digits w)); [|lia].
    simpl in By. exact By.
  - rewrite (testbit_above x (digits w) i), (testbit_above y (digits w) i)
      by assumption.
    reflexivity.
Qed.

Lemma axis_hash_injective (w : word_size) (z1 z2 N I : Z) :
  min_signed w <= z1 <= max_signed w -> min_signed w <= z2 <= max_signed w ->
  axis_hash w z1 N I = axis_hash w z2 N I -> z1 = z2.
Proof.
  intros H1 H2 Heq. unfold axis_hash in Heq.
  assert (Hm : 0 < 2 ^ digits w) by (apply (modulus_pos w)).
  apply rotate_left_injective in Heq; try (apply Z.mod_pos_bound; exact Hm).
  apply fibonacci_product_injective in Heq;
    try (apply Z.mod_pos_bound; exact Hm).
  apply (wrap_signed_injective w); assumption.
Qed.

Lemma static_cast_signed_range (w : word_size) (x : double) (z : Z) :
  static_cast_signed w x = ret z -> min_signed w <= z <= max_signed w.
Proof.
  destruct x as [s|s| |s m e]; simpl; try discriminate.
  - intros Hz. injection Hz as <-. unfold min_signed, max_signed.
    destruct w; simpl; lia.
  - destruct (Z.leb_spec (min_signed w) (cond_Zopp s (Z.shiftl (Zpos m) e)));
      simpl; [|discriminate].
    destruct (Z.leb_spec (cond_Zopp s (Z.shiftl (Zpos m) e)) (max_signed w));
      simpl; [|discriminate].
    intros Hz. injection Hz as <-. lia.
Qed.

(** On one axis the primitive has no collision: as instantiated by
    [hash_impl] or with any rotation amount below the width of the word, two
    values give the same word exactly when they floor to the same integer. *)
Theorem floor_and_fibo_hash_injective
    (w : word_size) (N I : Z) (q1 q2 : double) (z1 z2 : Z) :
  static_cast_signed w (std_floor q1) = ret z1 ->
  static_cast_signed w (std_floor q2) = ret z2 ->
  size_mul w N I < digits w ->
  result (detail.floor_and_fibo_hash w N I q1) =
  result (detail.floor_and_fibo_hash w N I q2) <->
  z1 = z2.
Proof.
  intros H1 H2 Hk.
  rewrite (floor_and_fibo_hash_defined w N I q1 z1 H1 Hk).
  rewrite (floor_and_fibo_hash_defined w N I q2 z2 H2 Hk).
  simpl. split.
  - intros Heq. injection Heq as Heq.
    apply (axis_hash_injective w z1 z2 N I);
      [eapply static_cast_signed_range; eassumption
      |eapply static_cast_signed_range; eassumption
      |exact Heq].
  - intros ->. reflexivity.
Qed.

Lemma floor_and_fibo_hash_injective_witness :
  result (detail.floor_and_fibo_hash W64 32 1 (literal 14 10)) =
  result (detail.floor_and_fibo_hash W64 32 1 (of_int 1)).
Proof.
  apply (floor_and_fibo_hash_injective W64 32 1 (literal 14 10) (of_int 1) 1 1);
    reflexivity.
Defined.

(** *** Separation of states that differ on one axis *)

Lemma fold_xor_option_middle (pre post : list (option Z)) (x : option Z) :
  fold_right xor_option (Some 0) (pre ++ x :: post) =
  xor_option x (fold_right xor_option (Some 0) (pre ++ post)).
Proof.
  induction pre as [|p pre IH]; simpl; [reflexivity|].
  rewrite IH, !xor_option_assoc, (xor_option_comm p x). reflexivity.
Qed.

Lemma xor_words_separate (pre post : list (option Z)) (a b : Z) :
  a <> b ->
  xor_words (pre ++ Some a :: post) <> None ->
  xor_words (pre ++ Some a :: post) <> xor_words (pre ++ Some b :: post).
Proof.
  rewrite !xor_words_fold_right, !fold_xor_option_middle.
  intros Hab Hdef Heq.
  destruct (fold_right xor_option (Some 0) (pre ++ post)) as [x|];
    simpl in *; [|congruence].
  injection Heq as Heq. apply Hab.
  rewrite <- (Z.lxor_0_r a), <- (Z.lxor_0_r b), <- (Z.lxor_nilpotent x).
  rewrite <- !Z.lxor_assoc, Heq. reflexivity.
Qed.

Lemma seq_split (D i : nat) :
  (i < D)%nat -> seq 0 D = seq 0 i ++ i :: seq (S i) (D - S i).
Proof.
  intros Hi. replace D with (i + S (D - S i))%nat at 1 by lia.
  rewrite seq_app. reflexivity.
Qed.

(** Two states that floor to different integers on one axis and to the same
    integers on all the others never collide: the hash separates neighbouring
    cells along every axis. *)
Lemma hash_impl_separates_cast {T : Type} `{Arithmetic T}
    (w : word_size) (D : nat) (r : list double) (v1 v2 : list T)
    (i : nat) (a1 a2 : T) (c : double) (z1 z2 : Z) :
  (1 <= D)%nat -> length r = D -> length v1 = D -> length v2 = D ->
  nth_error v1 i = Some a1 -> nth_error v2 i = Some a2 ->
  nth_error r i = Some c ->
  axis_signed_value w a1 c = ret z1 -> axis_signed_value w a2 c = ret z2 ->
  z1 <> z2 ->
  (forall j b1 b2 d,
     j <> i -> nth_error v1 j = Some b1 -> nth_error v2 j = Some b2 ->
     nth_error r j = Some d ->
     axis_signed_value w b1 d = axis_signed_value w b2 d) ->
  result (detail.hash_impl w v1 r (make_index_sequence D)) <> None ->
  result (detail.hash_impl w v1 r (make_index_sequence D)) <>
  result (detail.hash_impl w v2 r (make_index_sequence D)).
Proof.
  intros HD Hr Hv1 Hv2 Ha1 Ha2 Hc Hz1 Hz2 Hne Hothers.
  assert (Hi : (i < D)%nat).
  { rewrite <- Hr. apply nth_error_Some. congruence. }
  rewrite !hash_impl_combine by exact HD. unfold combine.
  rewrite (seq_split D i Hi), !map_app. simpl map.
  rewrite Ha1, Ha2, Hc.
  assert (Hk : size_mul w (digits w / Z.of_nat D) (Z.of_nat i) < digits w).
  { rewrite size_mul_rotation_amount by exact Hi.
    apply rotation_amount_range. exact Hi. }
  rewrite (floor_and_fibo_hash_defined w _ _ _ z1 Hz1 Hk).
  rewrite (floor_and_fibo_hash_defined w _ _ _ z2 Hz2 Hk).
  simpl result.
  assert (Hsame : forall j, j <> i -> (j < D)%nat ->
            match nth_error v1 j, nth_error r j with
            | Some a, Some d =>
                result (detail.floor_and_fibo_hash w (digits w / Z.of_nat D)
                          (Z.of_nat j) (fdiv (to_double a) d))
            | _, _ => None
            end =
            match nth_error v2 j, nth_error r j with
            | Some a, Some d =>
                result (detail.floor_and_fibo_hash w (digits w / Z.of_nat D)
                          (Z.of_nat j) (fdiv (to_double a) d))
            | _, _ => None
            end).
  { intros j Hj HjD.
    destruct (nth_error_defined v1 j) as [b1 Hb1]; [lia|].
    destruct (nth_error_defined v2 j) as [b2 Hb2]; [lia|].
    destruct (nth_error_defined r j) as [d Hd]; [lia|].
    rewrite Hb1, Hb2, Hd. f_equal.
    apply floor_and_fibo_hash_cast.
    exact (Hothers j b1 b2 d Hj Hb1 Hb2 Hd). }
  rewrite (map_ext_in _ _ (seq 0 i)
             (fun j Hin => Hsame j
                (ltac:(apply in_seq in Hin; lia))
                (ltac:(apply in_seq in Hin; lia)))).
  rewrite (map_ext_in _ _ (seq (S i) (D - S i))
             (fun j Hin => Hsame j
                (ltac:(apply in_seq in Hin; lia))
                (ltac:(apply in_seq in Hin; lia)))).
  apply xor_words_separate.
  intros Heq. apply Hne.
  apply (axis_hash_injective w z1 z2 (digits w / Z.of_nat D) (Z.of_nat i));
    [eapply static_cast_signed_range; exact Hz1
    |eapply static_cast_signed_range; exact Hz2
    |exact Heq].
Qed.

(** *** Well-formed quotients *)

Lemma Zdigits2_nonneg (m : Z) : 0 <= Zdigits2 m.
Proof. destruct m; simpl; lia. Qed.

Lemma Zdigits2_bounds (m : Z) :
  0 < m -> 2 ^ (Zdigits2 m - 1) <= m < 2 ^ Zdigits2 m.
Proof. destruct m as [|p|p]; try lia. intros _. apply digits2_pos_bounds. Qed.

Lemma Zdigits2_upper (m : Z) : 0 <= m -> m < 2 ^ Zdigits2 m.
Proof.
  intros Hm. destruct (Z.eq_dec m 0) as [->|Hne]; [reflexivity|].
  apply Zdigits2_bounds. lia.
Qed.

Lemma Zdigits2_unique (m d : Z) :
  2 ^ (d - 1) <= m < 2 ^ d -> 0 < m -> Zdigits2 m = d.
Proof.
  intros Hd Hm. pose proof (Zdigits2_bounds m Hm) as Hb.
  pose proof (Zdigits2_nonneg m) as Hn.
  assert (Hd0 : 0 < d).
  { destruct (Z.lt_ge_cases 0 d); [assumption|].
    destruct (Z.eq_dec d 0) as [->|]; [simpl in Hd; lia|].
    rewrite (Z.pow_neg_r 2 d) in Hd by lia. lia. }
  destruct (Z.lt_trichotomy (Zdigits2 m) d) as [Hlt|[Heq|Hgt]]; [|assumption|].
  - assert (2 ^ Zdigits2 m <= 2 ^ (d - 1)) by (apply Z.pow_le_mono_r; lia). lia.
  - assert (2 ^ d <= 2 ^ (Zdigits2 m - 1)) by (apply Z.pow_le_mono_r; lia). lia.
Qed.

Lemma shr_1_m (mrs : shr_record) :
  0 <= shr_m mrs -> shr_m (shr_1 mrs) = shr_m mrs / 2.
Proof.
  destruct mrs as [m r s]. simpl. intros Hm.
  rewrite <- Z.div2_div.
  destruct m as [|[p|p|]|p]; try reflexivity; lia.
Qed.

Lemma iter_pos_shr_m (n : positive) (mrs : shr_record) :
  0 <= shr_m mrs ->
  shr_m (iter_pos shr_1 n mrs) = shr_m mrs / 2 ^ Zpos n.
Proof.
  revert mrs. induction n as [n IH|n IH|]; intros mrs Hm; simpl iter_pos.
  - assert (Hp : 0 < 2 ^ Zpos n) by (apply Z.pow_pos_nonneg; lia).
    assert (H1 : 0 <= shr_m (shr_1 mrs)).
    { rewrite shr_1_m by assumption. apply Z.div_pos; lia. }
    assert (H2 : 0 <= shr_m (iter_pos shr_1 n (shr_1 mrs))).
    { rewrite IH by assumption. apply Z.div_pos; assumption. }
    rewrite IH, IH, shr_1_m by assumption.
    rewrite !Z.div_div by lia. f_equal.
    replace (Zpos n~1) with (1 + Zpos n + Zpos n) by lia.
    rewrite !Z.pow_add_r by lia. change (2 ^ 1) with 2. ring.
  - assert (Hp : 0 < 2 ^ Zpos n) by (apply Z.pow_pos_nonneg; lia).
    assert (H2 : 0 <= shr_m (iter_pos shr_1 n mrs)).
    { rewrite IH by assumption. apply Z.div_pos; assumption. }
    rewrite IH, IH by assumption.
    rewrite !Z.div_div by lia. f_equal.
    replace (Zpos n~0) with (Zpos n + Zpos n) by lia.
    rewrite !Z.pow_add_r by lia. ring.
  - apply shr_1_m. assumption.
Qed.

Lemma shr_record_of_loc_m (m : Z) (l : location) :
  shr_m (shr_record_of_loc m l) = m.
Proof. destruct l as [|[]]; reflexivity. Qed.

(** The mantissa and the exponent after [shr_fexp]. *)
Lemma shr_fexp_m (m e : Z) (l : location) :
  0 <= m ->
  let n := fexp prec emax (Zdigits2 m + e) - e in
  shr_m (fst (shr_fexp prec emax m e l)) = (if 0 <? n then m / 2 ^ n else m) /\
  snd (shr_fexp prec emax m e l) = (if 0 <? n then e + n else e).
Proof.
  intros Hm n. unfold shr_fexp. fold n. unfold shr.
  destruct n as [|p|p]; simpl; try (rewrite shr_record_of_loc_m; auto).
  split; [|reflexivity].
  rewrite iter_pos_shr_m; rewrite shr_record_of_loc_m; auto.
Qed.

Lemma round_nearest_even_cases (m : Z) (l : location) :
  round_nearest_even m l = m \/ round_nearest_even m l = m + 1.
Proof.
  destruct l as [|[]]; simpl; auto. destruct (Z.even m); auto.
Qed.

Lemma shr_fexp_positioned (m e : Z) (l : location) :
  0 <= m -> e <= fexp prec emax (Zdigits2 m + e) ->
  positioned (shr_m (fst (shr_fexp prec emax m e l)))
             (snd (shr_fexp prec emax m e l)).
Proof.
  intros Hm He. destruct (shr_fexp_m m e l Hm) as [-> ->].
  set (d := Zdigits2 m) in *.
  set (n := fexp prec emax (d + e) - e).
  assert (Hd : 0 <= d) by apply Zdigits2_nonneg.
  destruct (Z.ltb_spec 0 n) as [Hn|Hn].
  - destruct (Z.eq_dec m 0) as [->|Hm0].
    + left. split; [reflexivity|].
      subst n d. simpl in *. unfold fexp, emin, prec, emax in *. lia.
    + pose proof (Zdigits2_bounds m ltac:(lia)) as Hb. fold d in Hb.
      assert (Hpn : 0 < 2 ^ n) by (apply Z.pow_pos_nonneg; lia).
      destruct (Z.le_gt_cases d n) as [Hdn|Hdn].
      * left. split.
        -- apply Z.div_small. split; [lia|].
           apply Z.lt_le_trans with (2 ^ d); [lia|].
           apply Z.pow_le_mono_r; lia.
        -- subst n. unfold fexp, emin, prec, emax in *. lia.
      * right.
        assert (Hq : 2 ^ (d - n - 1) <= m / 2 ^ n < 2 ^ (d - n)).
        { split.
          - apply Z.div_le_lower_bound; [lia|].
            rewrite <- Z.pow_add_r by lia.
            replace (n + (d - n - 1)) with (d - 1) by ring. lia.
          - apply Z.div_lt_upper_bound; [lia|].
            rewrite <- Z.pow_add_r by lia.
            replace (n + (d - n)) with d by ring. lia. }
        assert (Hpos : 0 < m / 2 ^ n).
        { apply Z.lt_le_trans with (2 ^ (d - n - 1)); [|lia].
          apply Z.pow_pos_nonneg; lia. }
        split; [exact Hpos|].
        rewrite (Zdigits2_unique _ (d - n) Hq Hpos).
        replace (d - n + (e + n)) with (d + e) by ring.
        subst n. ring.
  - destruct (Z.eq_dec m 0) as [->|Hm0].
    + left. split; [reflexivity|].
      subst n d. simpl in *. unfold fexp, emin, prec, emax in *. lia.
    + right. split; [lia|]. fold d. subst n. lia.
Qed.

Lemma Zdigits2_le (m1 m2 : Z) : 0 <= m1 <= m2 -> Zdigits2 m1 <= Zdigits2 m2.
Proof.
  intros [H1 H2]. destruct (Z.eq_dec m1 0) as [->|Hne].
  - apply Zdigits2_nonneg.
  - pose proof (Zdigits2_bounds m1 ltac:(lia)) as B1.
    pose proof (Zdigits2_bounds m2 ltac:(lia)) as B2.
    destruct (Z.le_gt_cases (Zdigits2 m1) (Zdigits2 m2)) as [|Hgt]; [assumption|].
    assert (2 ^ Zdigits2 m2 <= 2 ^ (Zdigits2 m1 - 1)).
    { apply Z.pow_le_mono_r; lia. }
    lia.
Qed.

Lemma fexp_le (x y : Z) : x <= y -> fexp prec emax x <= fexp prec emax y.
Proof. unfold fexp, emin, prec, emax. lia. Qed.

Lemma fexp_emin (x : Z) : emin prec emax <= fexp prec emax x.
Proof. unfold fexp, emin, prec, emax. lia. Qed.

(** Every result of [binary_round_aux] on a mantissa that is not negative
    and an exponent that is not above its canonical position is well-formed. *)
Lemma binary_round_aux_valid (s : bool) (m e : Z) (l : location) :
  0 <= m -> e <= fexp prec emax (Zdigits2 m + e) ->
  valid_binary prec emax (binary_round_aux prec emax s m e l) = true.
Proof.
  intros Hm He. unfold binary_round_aux.
  pose proof (shr_fexp_positioned m e l Hm He) as P1.
  destruct (shr_fexp prec emax m e l) as [mrs1 e1]. simpl fst in P1. simpl snd in P1.
  set (m1 := round_nearest_even (shr_m mrs1) (loc_of_shr_record mrs1)).
  assert (Hm1 : 0 <= m1 /\ shr_m mrs1 <= m1).
  { destruct (round_nearest_even_cases (shr_m mrs1) (loc_of_shr_record mrs1))
      as [E|E]; fold m1 in E; destruct P1 as [[P _]|[P _]]; lia. }
  assert (He1 : e1 <= fexp prec emax (Zdigits2 m1 + e1)).
  { destruct P1 as [[_ ->]|[Hpos Hcan]].
    - apply fexp_emin.
    - rewrite <- Hcan at 1. apply fexp_le.
      pose proof (Zdigits2_le (shr_m mrs1) m1 ltac:(lia)). lia. }
  pose proof (shr_fexp_positioned m1 e1 loc_Exact (proj1 Hm1) He1) as P2.
  destruct (shr_fexp prec emax m1 e1 loc_Exact) as [mrs2 e2].
  simpl fst in P2. simpl snd in P2.
  destruct (shr_m mrs2) as [|p|p]; try reflexivity.
  destruct (Z.leb_spec e2 (emax - prec)) as [Hle|Hgt]; [|reflexivity].
  simpl. unfold bounded, canonical_mantissa.
  destruct P2 as [[P _]|[_ Hcan]]; [discriminate|].
  change (Zdigits2 (Zpos p)) with (Zpos (digits2_pos p)) in Hcan.
  rewrite Hcan, Z.eqb_refl. simpl.
  apply Z.leb_le. exact Hle.
Qed.

(** The quotient of two binary64 numbers is a well-formed binary64 number. *)
Lemma SFdiv_valid (x y : double) :
  valid_binary prec emax (SFdiv prec emax x y) = true.
Proof.
  destruct x as [sx|sx| |sx mx ex], y as [sy|sy| |sy my ey]; try reflexivity.
  unfold SFdiv, SFdiv_core_binary.
  set (d1 := Zdigits2 (Zpos mx)). set (d2 := Zdigits2 (Zpos my)).
  set (X := d1 + ex - (d2 + ey)).
  set (e' := Z.min (fexp prec emax X) (ex - ey)).
  set (s := ex - ey - e').
  assert (Hs : 0 <= s) by (subst s e'; lia).
  set (m' := match s with
             | 0 => Zpos mx
             | Zpos _ => Z.shiftl (Zpos mx) s
             | Zneg _ => 0
             end).
  assert (Hm' : m' = Zpos mx * 2 ^ s).
  { subst m'. destruct s as [|p|p] eqn:Es.
    - simpl. lia.
    - rewrite Z.shiftl_mul_pow2 by lia. reflexivity.
    - lia. }
  pose proof (Z_div_mod m' (Zpos my) ltac:(lia)) as Hdiv.
  destruct (Z.div_eucl m' (Zpos my)) as [q r].
  destruct Hdiv as [Hqr Hr].
  assert (Hps : 0 < 2 ^ s) by (apply Z.pow_pos_nonneg; lia).
  assert (Hq : 0 <= q) by nia.
  apply binary_round_aux_valid; [exact Hq|].
  apply Z.le_trans with (fexp prec emax X); [subst e'; lia|].
  apply fexp_le.
  pose proof (Zdigits2_bounds (Zpos mx) ltac:(lia)) as B1. fold d1 in B1.
  pose proof (Zdigits2_bounds (Zpos my) ltac:(lia)) as B2. fold d2 in B2.
  pose proof (Zdigits2_upper q Hq) as Bq.
  pose proof (Zdigits2_nonneg q) as Hdq.
  assert (Hd1 : 0 < d1) by (subst d1; simpl; lia).
  assert (Hd2 : 0 < d2) by (subst d2; simpl; lia).
  assert (Hlow : 2 ^ (d1 + s - 1) <= m').
  { rewrite Hm'. replace (d1 + s - 1) with (d1 - 1 + s) by ring.
    rewrite Z.pow_add_r by lia. nia. }
  assert (Hup : m' < 2 ^ (Zdigits2 q + d2)).
  { rewrite Z.pow_add_r by lia.
    assert (q + 1 <= 2 ^ Zdigits2 q) by lia.
    assert (0 < 2 ^ d2) by (apply Z.pow_pos_nonneg; lia).
    nia. }
  assert (Hexp : d1 + s - 1 < Zdigits2 q + d2).
  { apply (Z.pow_lt_mono_r_iff 2); lia. }
  subst X s. lia.
Qed.

Lemma fdiv_valid (a c : double) : valid_double (fdiv a c).
Proof. apply SFdiv_valid. Qed.

(** *** The integer of an axis and the floor of the exact quotient *)

Lemma static_cast_signed_binary_normalize (w : word_size) (n : Z) :
  n <> 0 -> Z.abs n < 2 ^ prec ->
  static_cast_signed w (binary_normalize prec emax n 0 false) =
  if in_signed_range w n then ret n else undefined.
Proof.
  intros Hn Habs.
  assert (Hgen : forall (s : bool) (p : positive),
             Zpos p < 2 ^ prec ->
             static_cast_signed w (binary_round prec emax s p 0) =
             if in_signed_range w (cond_Zopp s (Zpos p))
             then ret (cond_Zopp s (Zpos p)) else undefined).
  { intros s p Hp.
    destruct (binary_round_integer s p Hp) as [m [e [-> [He Hm]]]].
    unfold static_cast_signed, in_signed_range.
    assert (Ht : Z.shiftl (Zpos m) e = Zpos p).
    { replace e with (- - e) by ring.
      rewrite Z.shiftl_opp_r, Z.shiftr_div_pow2 by lia.
      rewrite Hm. apply Z.div_mul. apply Z.pow_nonzero; lia. }
    rewrite Ht. reflexivity. }
  destruct n as [|p|p]; [congruence| |].
  - apply (Hgen false p). exact Habs.
  - apply (Hgen true p). exact Habs.
Qed.

Lemma shiftl_abs_le (s : bool) (m : positive) (e : Z) :
  e < 0 -> Z.abs (Z.shiftl (cond_Zopp s (Zpos m)) e) <= Zpos m.
Proof.
  intros He. replace e with (- - e) by ring.
  rewrite Z.shiftl_opp_r, Z.shiftr_div_pow2 by lia.
  assert (Hp : 0 < 2 ^ (- e)) by (apply Z.pow_pos_nonneg; lia).
  destruct s; simpl.
  - assert (- Zpos m <= Z.neg m / 2 ^ (- e) <= 0); [|lia].
    split.
    + apply Z.div_le_lower_bound; [lia|]. nia.
    + apply Z.div_le_upper_bound; [lia|]. lia.
  - assert (0 <= Zpos m / 2 ^ (- e) <= Zpos m); [|lia].
    split.
    + apply Z.div_pos; lia.
    + apply Z.div_le_upper_bound; [lia|]. nia.
Qed.

(** The conversion of [std::floor(x)], for every well-formed [x]: the floor
    of the exact value when [x] is finite and that integer is representable,
    and undefined otherwise. *)
Lemma static_cast_signed_floor_value (w : word_size) (x : double) :
  valid_double x ->
  static_cast_signed w (std_floor x) =
  match double_value x with
  | Some q => if in_signed_range w (Qfloor q) then ret (Qfloor q) else undefined
  | None => undefined
  end.
Proof.
  intros Hv. destruct x as [s|s| |s m e]; cbv beta iota delta [double_value];
    try reflexivity.
  - destruct w; reflexivity.
  - rewrite Qfloor_finite.
    pose proof (valid_double_mantissa s m e Hv) as Hm.
    unfold std_floor. destruct (Z.leb_spec 0 e) as [He|He].
    + unfold static_cast_signed, in_signed_range.
      rewrite cond_Zopp_shiftl by assumption. reflexivity.
    + pose proof (shiftl_abs_le s m e He) as Habs.
      destruct (Z.shiftl (cond_Zopp s (Zpos m)) e) as [|p|p] eqn:En.
      * destruct w; reflexivity.
      * apply static_cast_signed_binary_normalize; [discriminate | lia].
      * apply static_cast_signed_binary_normalize; [discriminate | lia].
Qed.

(** The integer that the code computes on an axis is the floor of the exact
    value of the binary64 quotient; it is defined exactly when the quotient
    is finite and its floor fits the signed integer type. *)
Lemma axis_signed_value_floor {T : Type} `{Arithmetic T}
    (w : word_size) (a : T) (c : double) :
  axis_signed_value w a c =
  match bucket (to_double a) c with
  | Some z => if in_signed_range w z then ret z else undefined
  | None => undefined
  end.
Proof.
  unfold axis_signed_value, bucket.
  rewrite (static_cast_signed_floor_value w _ (fdiv_valid (to_double a) c)).
  destruct (double_value (fdiv (to_double a) c)); reflexivity.
Qed.

(** Bucket equivalence on integers: two states whose exact quotients have the
    same floor on every axis, or are infinite or NaN on the same axes, have
    the same execution of [hash_impl]. *)
Lemma hash_impl_bucket_eq {T : Type} `{Arithmetic T}
    (w : word_size) (D : nat) (r : list double) (v1 v2 : list T) :
  length r = D -> length v1 = D -> length v2 = D ->
  (forall i a b c,
     nth_error v1 i = Some a -> nth_error v2 i = Some b ->
     nth_error r i = Some c ->
     bucket (to_double a) c = bucket (to_double b) c) ->
  detail.hash_impl w v1 r (make_index_sequence D) =
  detail.hash_impl w v2 r (make_index_sequence D).
Proof.
  intros Hr H1 H2 Hb.
  unfold detail.hash_impl, make_index_sequence.
  f_equal. apply map_ext_in. intros i Hi. apply in_seq in Hi.
  destruct (nth_error_defined v1 i) as [a Ha]; [lia|].
  destruct (nth_error_defined v2 i) as [b Hb']; [lia|].
  destruct (nth_error_defined r i) as [c Hc]; [lia|].
  rewrite (hash_impl_axis w _ v1 r i a c Ha Hc).
  rewrite (hash_impl_axis w _ v2 r i b c Hb' Hc).
  apply floor_and_fibo_hash_cast.
  pose proof (axis_signed_value_floor w a c) as Ea.
  pose proof (axis_signed_value_floor w b c) as Eb.
  unfold axis_signed_value in Ea, Eb.
  rewrite Ea, Eb, (Hb i a b c Ha Hb' Hc). reflexivity.
Qed.

(** *** Negative resolutions *)

Lemma fdiv_opp (a c : double) : fdiv (SFopp a) c = fdiv a (SFopp c).
Proof.
  destruct a as [sa|sa| |sa ma ea], c as [sc|sc| |sc mc ec]; simpl;
    try reflexivity; destruct sa, sc; reflexivity.
Qed.

(** A negative resolution is not rejected: negating the resolution of every
    axis gives the hash of the mirrored state. *)
Theorem hash_impl_mirrored (w : word_size) (value resolution : list double)
    (index_sequence : list nat) :
  detail.hash_impl (T := double) w value (map SFopp resolution) index_sequence =
  detail.hash_impl (T := double) w (map SFopp value) resolution index_sequence.
Proof.
  unfold detail.hash_impl. f_equal. apply map_ext. intros i.
  unfold detail.get. rewrite !nth_error_map. cbv delta [double].
  destruct (@nth_error spec_float value i) as [a|]; simpl; [|reflexivity].
  rewrite !bind_ret.
  destruct (@nth_error spec_float resolution i) as [c|]; simpl; [|reflexivity].
  rewrite !bind_ret. unfold to_double, Arithmetic_double.
  rewrite fdiv_opp. reflexivity.
Qed.

(** *** More axes than bits *)

Lemma size_mul_0_l (w : word_size) (I : Z) : size_mul w 0 I = 0.
Proof.
  unfold size_mul, wrap. rewrite Z.mul_0_l. apply Z.mod_0_l.
  pose proof (modulus_pos w). lia.
Qed.

Lemma floor_and_fibo_hash_no_bits (w : word_size) (I : Z) (q : double) :
  detail.floor_and_fibo_hash w 0 I q = detail.floor_and_fibo_hash w 0 0 q.
Proof. unfold detail.floor_and_fibo_hash, size_mul. reflexivity. Qed.

Lemma map_seq_combine {A B C : Type} (F : nat -> A -> B -> C) (G : A -> B -> C)
    (dflt : C) (v : list A) (r : list B) (start : nat) :
  (forall i a c, F i a c = G a c) ->
  length v = length r ->
  map (fun i =>
         match nth_error v (i - start), nth_error r (i - start) with
         | Some a, Some c => F i a c
         | _, _ => dflt
         end) (seq start (length v)) =
  map (fun p => G (fst p) (snd p)) (List.combine v r).
Proof.
  intros HF. revert r start. induction v as [|a v IH]; intros r start Hlen.
  - reflexivity.
  - destruct r as [|c r]; [discriminate|]. simpl.
    rewrite Nat.sub_diag. simpl. rewrite HF. f_equal.
    rewrite <- (IH r (S start)) by (simpl in Hlen; lia).
    apply map_ext_in. intros i Hi. apply in_seq in Hi.
    replace (i - start)%nat with (S (i - S start)) by lia. reflexivity.
Qed.

Lemma xor_words_permutation (l1 l2 : list (option Z)) :
  Permutation l1 l2 -> xor_words l1 = xor_words l2.
Proof.
  rewrite !xor_words_fold_right.
  induction 1 as [|x l1 l2 _ IH|x y l|l1 l2 l3 _ IH1 _ IH2]; simpl.
  - reflexivity.
  - rewrite IH. reflexivity.
  - rewrite !xor_option_assoc, (xor_option_comm y x). reflexivity.
  - congruence.
Qed.

Lemma hash_impl_no_bits {T : Type} `{Arithmetic T}
    (w : word_size) (D : nat) (v : list T) (r : list double) :
  digits w < Z.of_nat D -> length v = D -> length r = D ->
  result (detail.hash_impl w v r (make_index_sequence D)) =
  xor_words
    (map (fun p =>
            result (detail.floor_and_fibo_hash w 0 0
                      (fdiv (to_double (fst p)) (snd p))))
         (List.combine v r)).
Proof.
  intros HD Hv Hr. pose proof (digits_pos w) as Hw.
  rewrite hash_impl_combine by lia. unfold combine.
  rewrite Z.div_small by lia. f_equal.
  rewrite <- (map_seq_combine
                (fun i a c =>
                   result (detail.floor_and_fibo_hash w 0 (Z.of_nat i)
                             (fdiv (to_double a) c)))
                (fun a c =>
                   result (detail.floor_and_fibo_hash w 0 0
                             (fdiv (to_double a) c)))
                None v r 0).
  - rewrite Hv. apply map_ext. intros i. rewrite Nat.sub_0_r. reflexivity.
  - intros i a c. rewrite floor_and_fibo_hash_no_bits. reflexivity.
  - congruence.
Qed.

(** With more axes than bits in the word, [kBits] is zero and no axis is
    rotated: the hash no longer depends on the order of the axes, and two
    states that are permutations of one another collide. *)
Theorem hash_impl_more_axes_than_bits {T : Type} `{Arithmetic T}
    (w : word_size) (D : nat) (v1 v2 : list T) (r1 r2 : list double) :
  digits w < Z.of_nat D ->
  length v1 = D -> length r1 = D -> length v2 = D -> length r2 = D ->
  Permutation (List.combine v1 r1) (List.combine v2 r2) ->
  result (detail.hash_impl w v1 r1 (make_index_sequence D)) =
  result (detail.hash_impl w v2 r2 (make_index_sequence D)) /\
  shifts (detail.hash_impl w v1 r1 (make_index_sequence D)) = [].
Proof.
  intros HD Hv1 Hr1 Hv2 Hr2 Hperm. split.
  - rewrite !hash_impl_no_bits by assumption.
    apply xor_words_permutation. apply Permutation_map. exact Hperm.
  - pose proof (hash_impl_shifts w D v1 r1) as HF.
    destruct (shifts (detail.hash_impl w v1 r1 (make_index_sequence D)))
      as [|k rest] eqn:E; [reflexivity|].
    exfalso.
    assert (Hin : In k (shifts (detail.hash_impl w v1 r1 (make_index_sequence D)))).
    { rewrite E. left. reflexivity. }
    revert Hin. unfold detail.hash_impl, make_index_sequence.
    rewrite length_seq, Z.div_small by (pose proof (digits_pos w); lia).
    intros Hin.
    assert (Hnone : Forall (fun _ : Z => False)
              (shifts
                 (detail.fold_xor
                    (map (fun Ids =>
                            v <- detail.get Ids v1 ;;
                            r <- detail.get Ids r1 ;;
                            detail.floor_and_fibo_hash w 0 (Z.of_nat Ids)
                              (fdiv (to_double v) r))
                       (seq 0 D))))).
    { apply Forall_shifts_fold_xor. apply Forall_map, Forall_forall.
      intros i _.
      apply Forall_shifts_bind;
        [unfold detail.get; destruct (nth_error v1 i); constructor|].
      intros a.
      apply Forall_shifts_bind;
        [unfold detail.get; destruct (nth_error r1 i); constructor|].
      intros c. rewrite floor_and_fibo_hash_no_bits.
      destruct (static_cast_signed_cases w (std_floor (fdiv (to_double a) c)))
        as [[z Hz]|Hu].
      - rewrite (floor_and_fibo_hash_defined w 0 0 _ z Hz)
          by (rewrite size_mul_0_l; apply digits_pos).
        constructor.
      - rewrite floor_and_fibo_hash_undefined by exact Hu. constructor. }
    rewrite Forall_forall in Hnone. exact (Hnone k Hin).
Qed.

Lemma hash_impl_more_axes_than_bits_witness :
  result (detail.hash_impl W32
            (of_int 1 :: of_int 2 :: repeat (of_int 0) 31)
            (repeat (of_int 1) 33) (make_index_sequence 33)) =
  result (detail.hash_impl W32
            (of_int 2 :: of_int 1 :: repeat (of_int 0) 31)
            (repeat (of_int 1) 33) (make_index_sequence 33)).
Proof.
  apply (hash_impl_more_axes_than_bits (T := double) W32 33); try reflexivity.
  apply perm_swap.
Defined.

(** *** Definedness and separation in terms of buckets *)

Lemma axis_signed_value_defined {T : Type} `{Arithmetic T}
    (w : word_size) (a : T) (c : double) :
  axis_signed_value w a c <> undefined <->
  exists z, bucket (to_double a) c = Some z /\ in_signed_range w z = true.
Proof.
  rewrite axis_signed_value_floor.
  destruct (bucket (to_double a) c) as [z|].
  - destruct (in_signed_range w z) eqn:E; split.
    + intros _. exists z. auto.
    + intros _. discriminate.
    + intros Hd. exfalso. apply Hd. reflexivity.
    + intros [z' [Hz' Hr]]. injection Hz' as <-. congruence.
  - split; [intros Hd; exfalso; apply Hd; reflexivity|].
    intros [z [Hz _]]. discriminate.
Qed.

Lemma axis_signed_value_ret {T : Type} `{Arithmetic T}
    (w : word_size) (a : T) (c : double) (z : Z) :
  bucket (to_double a) c = Some z -> in_signed_range w z = true ->
  axis_signed_value w a c = ret z.
Proof.
  intros Hb Hr. rewrite axis_signed_value_floor, Hb, Hr. reflexivity.
Qed.

(** The hash of a state is defined exactly when, on every axis, the binary64
    quotient is finite and its floor fits the signed integer type. *)
Lemma hash_impl_defined_bucket {T : Type} `{Arithmetic T}
    (w : word_size) (D : nat) (value : list T) (resolution : list double) :
  (1 <= D)%nat -> length value = D -> length resolution = D ->
  result (detail.hash_impl w value resolution (make_index_sequence D)) <> None <->
  (forall i a c,
     nth_error value i = Some a -> nth_error resolution i = Some c ->
     exists z, bucket (to_double a) c = Some z /\ in_signed_range w z = true).
Proof.
  intros HD Hv Hr.
  rewrite (hash_impl_defined_cast w D value resolution HD Hv Hr).
  split; intros Hall i a c Ha Hc.
  - apply axis_signed_value_defined. exact (Hall i a c Ha Hc).
  - apply axis_signed_value_defined. exact (Hall i a c Ha Hc).
Qed.

(** Two states whose buckets differ on one axis and agree on all the others
    never collide: the hash separates the cells that are aligned along an
    axis, at any distance. *)
Theorem hash_impl_separates_cells {T : Type} `{Arithmetic T}
    (w : word_size) (D : nat) (r : list double) (v1 v2 : list T)
    (i : nat) (a1 a2 : T) (c : double) (z1 z2 : Z) :
  (1 <= D)%nat -> length r = D -> length v1 = D -> length v2 = D ->
  nth_error v1 i = Some a1 -> nth_error v2 i = Some a2 ->
  nth_error r i = Some c ->
  bucket (to_double a1) c = Some z1 -> bucket (to_double a2) c = Some z2 ->
  z1 <> z2 -> in_signed_range w z2 = true ->
  (forall j b1 b2 d,
     j <> i -> nth_error v1 j = Some b1 -> nth_error v2 j = Some b2 ->
     nth_error r j = Some d ->
     bucket (to_double b1) d = bucket (to_double b2) d) ->
  result (detail.hash_impl w v1 r (make_index_sequence D)) <> None ->
  result (detail.hash_impl w v1 r (make_index_sequence D)) <>
  result (detail.hash_impl w v2 r (make_index_sequence D)).
Proof.
  intros HD Hr Hv1 Hv2 Ha1 Ha2 Hc Hz1 Hz2 Hne Hr2 Hothers Hdef.
  assert (Hr1 : in_signed_range w z1 = true).
  { pose proof (proj1 (hash_impl_defined_bucket w D v1 r HD Hv1 Hr) Hdef
                  i a1 c Ha1 Hc) as [z [Hz Hrange]].
    rewrite Hz1 in Hz. injection Hz as <-. exact Hrange. }
  apply (hash_impl_separates_cast w D r v1 v2 i a1 a2 c z1 z2); try assumption.
  - apply axis_signed_value_ret; assumption.
  - apply axis_signed_value_ret; assumption.
  - intros j b1 b2 d Hj Hb1 Hb2 Hd.
    rewrite !axis_signed_value_floor, (Hothers j b1 b2 d Hj Hb1 Hb2 Hd).
    reflexivity.
Qed.

Lemma hash_impl_separates_cells_witness :
  result (detail.hash_impl W64 [literal 14 10; literal 29 10]
            [of_int 1; of_int 1] (make_index_sequence 2)) <>
  result (detail.hash_impl W64 [literal 14 10; literal (-3) 10]
            [of_int 1; of_int 1] (make_index_sequence 2)).
Proof.
  apply (hash_impl_separates_cells (T := double) W64 2 _ _ _ 1%nat
           (literal 29 10) (literal (-3) 10) (of_int 1) 2 (-1));
    try reflexivity.
  - apply le_S, le_n.
  - discriminate.
  - intros [|[|j]] b1 b2 d Hj Hb1 Hb2 Hd.
    + injection Hb1 as <-. injection Hb2 as <-. reflexivity.
    + exfalso. apply Hj. reflexivity.
    + destruct j; discriminate Hb1.
  - vm_compute. discriminate.
Defined.

(** *** Integer states at the unit resolution *)

Lemma binary_round_aux_canonical (s : bool) (m : positive) (e : Z) :
  fexp prec emax (Zpos (digits2_pos m) + e) = e -> e <= 971 ->
  binary_round_aux prec emax s (Zpos m) e loc_Exact = S754_finite s m e.
Proof.
  intros Hcan He.
  assert (Hshr : shr_fexp prec emax (Zpos m) e loc_Exact =
                 (Build_shr_record (Zpos m) false false, e)).
  { unfold shr_fexp, Zdigits2. rewrite Hcan, Z.sub_diag. reflexivity. }
  unfold binary_round_aux. rewrite Hshr. simpl. rewrite Hshr. simpl.
  destruct (Z.leb_spec e 971); [reflexivity | lia].
Qed.

Lemma of_int_1 : of_int 1 = S754_finite false 4503599627370496 (-52).
Proof. reflexivity. Qed.

Lemma new_location_exact : new_location 4503599627370496 0 = loc_Exact.
Proof. reflexivity. Qed.

(** Division by [1.0] is exact. *)
Lemma fdiv_one (x : double) : valid_double x -> fdiv x (of_int 1) = x.
Proof.
  intros Hv. rewrite of_int_1.
  destruct x as [s|s| |s m e]; try (destruct s; reflexivity); try reflexivity.
  unfold valid_double, valid_binary, bounded, canonical_mantissa in Hv.
  apply andb_true_iff in Hv. destruct Hv as [Hcan Hmax].
  apply Z.eqb_eq in Hcan. apply Z.leb_le in Hmax.
  unfold fdiv, SFdiv, SFdiv_core_binary.
  change (Zdigits2 (Zpos m)) with (Zpos (digits2_pos m)).
  change (Zdigits2 4503599627370496) with 53.
  rewrite xorb_false_r.
  set (d := Zpos (digits2_pos m)) in *.
  destruct (Z.eq_dec e (-1074)) as [He|He].
  - replace (Z.min (fexp prec emax (d + e - (53 + -52))) (e - -52))
      with (-1074) by (unfold fexp, emin, prec, emax in *; lia).
    replace (e - -52 - -1074) with 52 by lia.
    cbv beta iota.
    pose proof (Z_div_mod (Z.shiftl (Zpos m) 52) 4503599627370496
                  ltac:(reflexivity)) as Hdiv.
    destruct (Z.div_eucl (Z.shiftl (Zpos m) 52) 4503599627370496) as [q r].
    rewrite Z.shiftl_mul_pow2 in Hdiv by lia.
    change (2 ^ 52) with 4503599627370496 in Hdiv.
    assert (Hq : q = Zpos m) by lia. assert (Hr : r = 0) by lia. subst q r.
    rewrite new_location_exact. rewrite He.
    apply binary_round_aux_canonical; [|lia].
    rewrite <- He. exact Hcan.
  - assert (Hd : d = 53) by (unfold fexp, emin, prec, emax in *; lia).
    assert (He' : -1074 < e) by (unfold fexp, emin, prec, emax in *; lia).
    replace (Z.min (fexp prec emax (d + e - (53 + -52))) (e - -52))
      with (e - 1) by (unfold fexp, emin, prec, emax in *; lia).
    replace (e - -52 - (e - 1)) with 53 by lia.
    cbv beta iota.
    pose proof (Z_div_mod (Z.shiftl (Zpos m) 53) 4503599627370496
                  ltac:(reflexivity)) as Hdiv.
    destruct (Z.div_eucl (Z.shiftl (Zpos m) 53) 4503599627370496) as [q r].
    rewrite Z.shiftl_mul_pow2 in Hdiv by lia.
    change (2 ^ 53) with 9007199254740992 in Hdiv.
    assert (Hq : q = Zpos m~0) by lia. assert (Hr : r = 0) by lia. subst q r.
    rewrite new_location_exact.
    assert (Hshr : shr_fexp prec emax (Zpos m~0) (e - 1) loc_Exact =
                   (Build_shr_record (Zpos m) false false, e)).
    { unfold shr_fexp.
      change (Zdigits2 (Zpos m~0)) with (Zpos (Pos.succ (digits2_pos m))).
      rewrite Pos2Z.inj_succ. fold d. rewrite Hd.
      replace (fexp prec emax (Z.succ 53 + (e - 1)) - (e - 1)) with 1
        by (unfold fexp, emin, prec, emax; lia).
      simpl. f_equal. lia. }
    assert (Hshr2 : shr_fexp prec emax (Zpos m) e loc_Exact =
                    (Build_shr_record (Zpos m) false false, e)).
    { unfold shr_fexp, Zdigits2. fold d. rewrite Hcan, Z.sub_diag.
      reflexivity. }
    unfold binary_round_aux. rewrite Hshr. simpl. rewrite Hshr2. simpl.
    unfold emax, prec in Hmax.
    destruct (Z.leb_spec e 971); [reflexivity | lia].
Qed.

Lemma binary_round_integer_form (s : bool) (p : positive) :
  Zpos p < 2 ^ prec ->
  exists m e,
    binary_round prec emax s p 0 = S754_finite s m e /\
    -52 <= e <= 0 /\ Zpos m = Zpos p * 2 ^ (- e) /\
    Zpos (digits2_pos m) = prec.
Proof.
  intros Hp. pose proof (digits2_pos_le p prec Hp) as Hd.
  unfold binary_round, shl_align.
  assert (Hf : fexp prec emax (Zpos (digits2_pos p) + 0) = Zpos (digits2_pos p) - prec).
  { unfold fexp, emin, prec, emax. lia. }
  rewrite Hf.
  destruct (Zpos (digits2_pos p) - prec - 0) as [|d|d] eqn:Ed.
  - exists p, 0. split; [|split; [lia | split; [simpl; lia | lia]]].
    apply binary_round_aux_exact; lia.
  - unfold prec in *. lia.
  - exists (Pos.iter xO p d), (Zpos (digits2_pos p) - prec).
    assert (Hdig : Zpos (digits2_pos (Pos.iter xO p d)) = prec).
    { rewrite iter_xO_digits. unfold prec in *. lia. }
    split; [|split; [unfold prec in *; lia | split; [|exact Hdig]]].
    + apply binary_round_aux_exact; [exact Hdig | unfold prec in *; lia].
    + rewrite iter_xO_value. f_equal. f_equal. lia.
Qed.

(** An integer below [2^53] in absolute value is converted to a well-formed
    number that floors back to it. *)
Lemma of_int_exact (w : word_size) (z : Z) :
  Z.abs z < 2 ^ prec ->
  valid_double (of_int z) /\
  static_cast_signed w (std_floor (of_int z)) =
  if in_signed_range w z then ret z else undefined.
Proof.
  intros Hz. destruct (Z.eq_dec z 0) as [->|Hne].
  - split; [reflexivity | destruct w; reflexivity].
  - assert (Hform : exists s p m e,
              z = cond_Zopp s (Zpos p) /\
              of_int z = S754_finite s m e /\
              -52 <= e <= 0 /\ Zpos m = Zpos p * 2 ^ (- e) /\
              Zpos (digits2_pos m) = prec).
    { destruct z as [|p|p]; [congruence| |].
      - destruct (binary_round_integer_form false p Hz) as [m [e [E H]]].
        exists false, p, m, e. split; [reflexivity | split; assumption].
      - destruct (binary_round_integer_form true p Hz) as [m [e [E H]]].
        exists true, p, m, e. split; [reflexivity | split; assumption]. }
    destruct Hform as [s [p [m [e [Hzp [Hof [He [Hm Hdig]]]]]]]].
    assert (Hvalid : valid_double (of_int z)).
    { rewrite Hof. unfold valid_double, valid_binary, bounded, canonical_mantissa.
      rewrite Hdig. apply andb_true_iff. split.
      - apply Z.eqb_eq. unfold fexp, emin, prec, emax. lia.
      - apply Z.leb_le. unfold emax, prec. lia. }
    split; [exact Hvalid|].
    rewrite (static_cast_signed_floor_value w _ Hvalid), Hof.
    cbv beta iota delta [double_value]. rewrite Qfloor_finite.
    assert (Hfl : Z.shiftl (cond_Zopp s (Zpos m)) e = z).
    { replace e with (- - e) by ring.
      rewrite Z.shiftl_opp_r, Z.shiftr_div_pow2 by lia.
      assert (Hpe : 0 < 2 ^ (- e)) by (apply Z.pow_pos_nonneg; lia).
      rewrite Hzp. destruct s; cbv beta iota delta [cond_Zopp].
      - rewrite Hm. rewrite <- Z.mul_opp_l. apply Z.div_mul. lia.
      - rewrite Hm. apply Z.div_mul. lia. }
    rewrite Hfl. reflexivity.
Qed.

(** An array of integers hashed at the resolution [1.0] on every axis uses
    the integers themselves as buckets: the hash is the XOR-fold of the
    per-axis words of the coordinates. *)
Theorem hash_impl_integers (w : word_size) (D : nat) (ints : list Z) :
  (1 <= D)%nat -> length ints = D ->
  Forall (fun z => Z.abs z < 2 ^ prec /\ in_signed_range w z = true) ints ->
  (forall z, In z ints -> axis_signed_value w z (of_int 1) = ret z) /\
  result (detail.hash_impl w ints (repeat (of_int 1) D) (make_index_sequence D)) =
  xor_words
    (map (fun i =>
            match nth_error ints i with
            | Some z =>
                Some (axis_hash w z (digits w / Z.of_nat D) (Z.of_nat i))
            | None => None
            end)
         (seq 0 D)).
Proof.
  intros HD Hlen Hall.
  assert (Haxis : forall z, In z ints ->
            axis_signed_value w z (of_int 1) = ret z).
  { intros z Hin. rewrite Forall_forall in Hall.
    destruct (Hall z Hin) as [Habs Hrange].
    destruct (of_int_exact w z Habs) as [Hvalid Hcast].
    unfold axis_signed_value, to_double, Arithmetic_int.
    rewrite (fdiv_one _ Hvalid), Hcast, Hrange. reflexivity. }
  split; [exact Haxis|].
  rewrite hash_impl_combine by exact HD. unfold combine. f_equal.
  apply map_ext_in. intros i Hi. apply in_seq in Hi.
  destruct (nth_error ints i) as [z|] eqn:Ez; [|reflexivity].
  rewrite nth_error_repeat by lia.
  pose proof (Haxis z (nth_error_In _ _ Ez)) as Hz.
  unfold axis_signed_value in Hz.
  rewrite (floor_and_fibo_hash_defined w _ _ _ z Hz).
  - reflexivity.
  - rewrite size_mul_rotation_amount by lia.
    apply rotation_amount_range. lia.
Qed.

Lemma hash_impl_integers_witness :
  result (detail.hash_impl W64 [3; -7] (repeat (of_int 1) 2)
            (make_index_sequence 2)) =
  xor_words [Some (axis_hash W64 3 32 0); Some (axis_hash W64 (-7) 32 1)].
Proof.
  apply (hash_impl_integers W64 2 [3; -7]).
  - apply le_S, le_n.
  - reflexivity.
  - repeat constructor.
Defined.

(** *** The order of evaluation of the fold *)

Lemma Permutation_nonempty {A : Type} (l1 l2 : list A) :
  Permutation l1 l2 -> l1 <> [] -> l2 <> [].
Proof.
  intros Hperm Hne ->. apply Hne. apply Permutation_nil.
  apply Permutation_sym. exact Hperm.
Qed.

(** *** Poses in the same cell *)

(** Two poses whose translation components and angles have the same buckets
    under the three resolutions of the hasher have the same hash. *)
Theorem pose_bucket_equivalence (w : word_size)
    (x_resolution y_resolution theta_resolution : double)
    (state1 state2 : Sophus.SE2d) :
  bucket (Sophus.x (Sophus.translation state1)) x_resolution =
  bucket (Sophus.x (Sophus.translation state2)) x_resolution ->
  bucket (Sophus.y (Sophus.translation state1)) y_resolution =
  bucket (Sophus.y (Sophus.translation state2)) y_resolution ->
  bucket (Sophus.log (Sophus.so2 state1)) theta_resolution =
  bucket (Sophus.log (Sophus.so2 state2)) theta_resolution ->
  spatial_hash_SE2d.call w
    (spatial_hash_SE2d.make3 x_resolution y_resolution theta_resolution) state1 =
  spatial_hash_SE2d.call w
    (spatial_hash_SE2d.make3 x_resolution y_resolution theta_resolution) state2.
Proof.
  intros Hx Hy Ht.
  unfold spatial_hash_SE2d.call, spatial_hash_tuple.call. simpl.
  apply (hash_impl_bucket_eq (T := scalar) w 3); try reflexivity.
  intros [|[|[|i]]] a b c Ha Hb Hc; simpl in Ha, Hb, Hc.
  - injection Ha as <-. injection Hb as <-. injection Hc as <-. exact Hx.
  - injection Ha as <-. injection Hb as <-. injection Hc as <-. exact Hy.
  - injection Ha as <-. injection Hb as <-. injection Hc as <-. exact Ht.
  - destruct i; discriminate Ha.
Qed.

Lemma pose_bucket_equivalence_witness :
  spatial_hash_SE2d.call W64
    (spatial_hash_SE2d.make3 (literal 1 10) (literal 1 10) (literal 1 10))
    {| Sophus.so2 := {| Sophus.log := literal 1 100 |};
       Sophus.translation :=
         {| Sophus.x := literal 25 100; Sophus.y := literal 5 100 |} |} =
  spatial_hash_SE2d.call W64
    (spatial_hash_SE2d.make3 (literal 1 10) (literal 1 10) (literal 1 10))
    {| Sophus.so2 := {| Sophus.log := literal 9 100 |};
       Sophus.translation :=
         {| Sophus.x := literal 21 100; Sophus.y := literal 2 100 |} |}.
Proof.
  apply pose_bucket_equivalence; vm_compute; reflexivity.
Defined.

(** *** Buckets: statements *)

(** The integer [signed_value] computed on an axis is the floor of the exact
    value of the binary64 quotient when that quotient is finite and the floor
    fits the signed integer type; the conversion is undefined otherwise. *)
Theorem axis_signed_value_bucket {T : Type} `{Arithmetic T}
    (w : word_size) (a : T) (c : double) :
  axis_signed_value w a c =
  match bucket (to_double a) c with
  | Some z => if in_signed_range w z then ret z else undefined
  | None => undefined
  end.
Proof. apply axis_signed_value_floor. Qed.

(** The hash of a state is defined exactly when, on every axis, the binary64
    quotient is finite and its floor fits the signed integer type. *)
Theorem hash_impl_defined_iff {T : Type} `{Arithmetic T}
    (w : word_size) (D : nat) (value : list T) (resolution : list double) :
  (1 <= D)%nat -> length value = D -> length resolution = D ->
  result (detail.hash_impl w value resolution (make_index_sequence D)) <> None <->
  (forall i a c,
     nth_error value i = Some a -> nth_error resolution i = Some c ->
     exists z, bucket (to_double a) c = Some z /\ in_signed_range w z = true).
Proof. apply hash_impl_defined_bucket. Qed.

Lemma hash_impl_defined_iff_witness :
  result (detail.hash_impl W64 [literal 14 10; literal 29 10]
            [of_int 1; of_int 1] (make_index_sequence 2)) <> None.
Proof.
  apply (hash_impl_defined_iff (T := double) W64 2); try reflexivity.
  - apply le_S, le_n.
  - intros [|[|i]] a c Ha Hc.
    + injection Ha as <-. injection Hc as <-.
      exists 1. split; vm_compute; reflexivity.
    + injection Ha as <-. injection Hc as <-.
      exists 2. split; vm_compute; reflexivity.
    + destruct i; discriminate Ha.
Defined.

(** Bucket equivalence on integers: two states whose exact quotients have the
    same floor on every axis, or are infinite or NaN on the same axes, have
    the same execution of [hash_impl]. *)
Theorem hash_impl_bucket_integer {T : Type} `{Arithmetic T}
    (w : word_size) (D : nat) (r : list double) (v1 v2 : list T) :
  length r = D -> length v1 = D -> length v2 = D ->
  (forall i a b c,
     nth_error v1 i = Some a -> nth_error v2 i = Some b ->
     nth_error r i = Some c ->
     bucket (to_double a) c = bucket (to_double b) c) ->
  detail.hash_impl w v1 r (make_index_sequence D) =
  detail.hash_impl w v2 r (make_index_sequence D).
Proof. apply hash_impl_bucket_eq. Qed.

Lemma hash_impl_bucket_integer_witness :
  detail.hash_impl W64 [literal 5 100; literal 29 10] [literal 1 10; of_int 1]
    (make_index_sequence 2) =
  detail.hash_impl W64 [literal 9 100; literal 2 1] [literal 1 10; of_int 1]
    (make_index_sequence 2).
Proof.
  apply (hash_impl_bucket_integer (T := double) W64 2); try reflexivity.
  intros [|[|i]] a b c Ha Hb Hc.
  - injection Ha as <-. injection Hb as <-. injection Hc as <-.
    vm_compute. reflexivity.
  - injection Ha as <-. injection Hb as <-. injection Hc as <-.
    vm_compute. reflexivity.
  - destruct i; discriminate Ha.
Defined.

(** *** The range of the hash word: statement *)

(** Every hash that [hash_impl] returns fits the word: the embedding never
    leaves the range of [std::size_t]. *)
Theorem hash_impl_range {T : Type} `{Arithmetic T}
    (w : word_size) (D : nat) (value : list T) (resolution : list double)
    (h : Z) :
  (1 <= D)%nat ->
  result (detail.hash_impl w value resolution (make_index_sequence D)) = Some h ->
  0 <= h < 2 ^ digits w.
Proof. apply hash_impl_word_range. Qed.

Lemma hash_impl_range_witness :
  0 <= 6963551918331563879 < 2 ^ digits W64.
Proof.
  apply (hash_impl_range (T := double) W64 2 [of_int 1; of_int 2]
           [of_int 1; of_int 1]).
  - apply le_S, le_n.
  - reflexivity.
Defined.

(** *** The order of evaluation of the fold: statement *)

(** The operands of the fold expression may be evaluated and combined in any
    order: the hash that is returned is the same; there is no hash, in any
    order, as soon as one operand is undefined, and there is one when every
    operand is defined. *)
Theorem fold_xor_order (operands reordered : list (exec Z)) :
  Permutation operands reordered -> operands <> [] ->
  result (detail.fold_xor operands) = result (detail.fold_xor reordered) /\
  ((exists e, In e operands /\ result e = None) ->
   result (detail.fold_xor operands) = None /\
   result (detail.fold_xor reordered) = None) /\
  (Forall (fun e => result e <> None) operands ->
   result (detail.fold_xor operands) <> None /\
   result (detail.fold_xor reordered) <> None).
Proof.
  intros Hperm Hne.
  pose proof (Permutation_nonempty _ _ Hperm Hne) as Hne'.
  assert (Heq : result (detail.fold_xor operands) =
                result (detail.fold_xor reordered)).
  { rewrite !result_fold_xor by assumption.
    apply xor_words_permutation. apply Permutation_map. exact Hperm. }
  split; [exact Heq|]. split.
  - intros [e [Hin He]].
    assert (Hnone : result (detail.fold_xor operands) = None).
    { rewrite result_fold_xor by exact Hne. apply xor_words_undefined.
      rewrite <- He. apply in_map. exact Hin. }
    split; [exact Hnone | rewrite <- Heq; exact Hnone].
  - intros Hall.
    assert (Hsome : result (detail.fold_xor operands) <> None).
    { rewrite result_fold_xor by exact Hne. apply xor_words_defined.
      apply Forall_map. exact Hall. }
    split; [exact Hsome | rewrite <- Heq; exact Hsome].
Qed.

Lemma fold_xor_order_witness :
  result (detail.fold_xor [ret 5; undefined; ret 12]) = None /\
  result (detail.fold_xor [undefined; ret 5; ret 12]) = None.
Proof.
  destruct (fold_xor_order [ret 5; undefined; ret 12]
              [undefined; ret 5; ret 12]) as [_ [Hundefined _]].
  - apply perm_swap.
  - discriminate.
  - apply Hundefined. exists undefined. split; [right; left|]; reflexivity.
Defined.

(** *** Bucket equivalence and determinism *)

(** C1, bucket equivalence: for every dimensionality [D >= 1], every
    resolution vector [r] and every two states [v1], [v2] such that
    [floor(v1[i] / r[i]) == floor(v2[i] / r[i])] on every axis [i], a hasher
    constructed from [r] maps [v1] and [v2] to the same hash word: the two
    executions agree altogether, for the array hasher and for every other
    caller of [hash_impl], and as soon as the floor of every axis is finite
    and fits the signed integer type, a hash word is returned, the same for
    the two states. *)
Theorem bucket_equivalence {T : Type} `{Arithmetic T}
    (w : word_size) (D : nat) (r : list double) (v1 v2 : list T) :
  (1 <= D)%nat -> length r = D -> length v1 = D -> length v2 = D ->
  (forall i a b c,
     nth_error v1 i = Some a -> nth_error v2 i = Some b ->
     nth_error r i = Some c ->
     double_eq (std_floor (fdiv (to_double a) c))
               (std_floor (fdiv (to_double b) c))) ->
  spatial_hash_array.call w (spatial_hash_array.make D r) v1 =
  spatial_hash_array.call w (spatial_hash_array.make D r) v2 /\
  detail.hash_impl w v1 r (make_index_sequence D) =
  detail.hash_impl w v2 r (make_index_sequence D) /\
  ((forall i a c,
      nth_error v1 i = Some a -> nth_error r i = Some c ->
      exists z, bucket (to_double a) c = Some z /\ in_signed_range w z = true) ->
   exists h,
     0 <= h < 2 ^ digits w /\
     result (spatial_hash_array.call w (spatial_hash_array.make D r) v1) =
       Some h /\
     result (spatial_hash_array.call w (spatial_hash_array.make D r) v2) =
       Some h).
Proof.
  intros HD Hr H1 H2 Hfloor.
  pose proof (hash_impl_bucket_equivalence w D r v1 v2 Hr H1 H2 Hfloor) as Heq.
  split; [exact Heq|]. split; [exact Heq|].
  intros Hfit.
  pose proof (proj2 (hash_impl_defined_bucket w D v1 r HD H1 Hr) Hfit) as Hdef.
  unfold spatial_hash_array.call. simpl. rewrite <- Heq.
  destruct (result (detail.hash_impl w v1 r (make_index_sequence D)))
    as [h|] eqn:Eh; [|congruence].
  exists h. split; [|split; reflexivity].
  apply (hash_impl_word_range w D v1 r h HD Eh).
Qed.

Lemma bucket_equivalence_witness :
  exists h,
    0 <= h < 2 ^ digits W64 /\
    result (spatial_hash_array.call W64
              (spatial_hash_array.make 2 [of_int 1; of_int 1])
              [of_int 1; of_int 2]) = Some h /\
    result (spatial_hash_array.call W64
              (spatial_hash_array.make 2 [of_int 1; of_int 1])
              [literal 14 10; literal 29 10]) = Some h.
Proof.
  destruct (bucket_equivalence (T := double) W64 2 [of_int 1; of_int 1]
              [of_int 1; of_int 2] [literal 14 10; literal 29 10])
    as [_ [_ Hword]]; try reflexivity.
  - apply le_S, le_n.
  - intros [|[|i]] a b c Ha Hb Hc.
    + injection Ha as <-. injection Hb as <-. injection Hc as <-.
      vm_compute. reflexivity.
    + injection Ha as <-. injection Hb as <-. injection Hc as <-.
      vm_compute. reflexivity.
    + destruct i; discriminate Ha.
  - apply Hword. intros [|[|i]] a c Ha Hc.
    + injection Ha as <-. injection Hc as <-.
      exists 1. split; vm_compute; reflexivity.
    + injection Ha as <-. injection Hc as <-.
      exists 2. split; vm_compute; reflexivity.
    + destruct i; discriminate Ha.
Defined.




